(** * Asset-Liquidity-Terminal: the weekly ledger pipeline

    A shallow embedding of the data pipeline of the dashboard component
    [App] (bucketing of transactions into weeks of a month, the rolling
    balance, the aggregation into half months and months, and the
    selection of the cards on display), followed by the properties the
    specification states about it.

    Conventions of the embedding.
    - A JavaScript [number] is kept abstract: the pipeline only adds,
      subtracts and writes literals, so every definition is parametric in
      a type [num] with these three operations (class [Number]).  What is
      proved holds for IEEE doubles as well as for exact integers; the
      instance on [Z] is used to run the code on examples.
    - A [Date] is the local calendar date the code reads through
      [getFullYear], [getMonth] (0..11) and [getDate] (1..31); its time
      value orders dates chronologically.  The time of day plays no role
      in the pipeline.
    - Template literals are strings; an integer is printed in decimal
      ([pretty]), as JavaScript prints it.
    - The object [map] of the aggregation is an association list in
      insertion order, which is the order [Object.values] enumerates its
      keys in (no key of the pipeline is an array index or a property
      of [Object.prototype]: each starts with a year and contains a
      dash). *)

From Stdlib Require Import ZArith Lia Ascii.
From stdpp Require Import base option list strings pretty.
From Equations Require Import Equations.

Local Open Scope string_scope.
Local Open Scope list_scope.
Local Open Scope Z_scope.

(** ** Numbers *)

Class Number (num : Type) := {
  nlit : Z → num;            (* a numeric literal *)
  nadd : num → num → num;    (* a + b *)
  nsub : num → num → num;    (* a - b *)
}.

#[global] Instance Z_Number : Number Z :=
  {| nlit z := z; nadd := Z.add; nsub := Z.sub |}.

(** ** Dates *)

Definition valid_date (m d : Z) : bool :=
  (0 <=? m) && (m <=? 11) && (1 <=? d) && (d <=? 31).

Record Date := mkDate {
  getFullYear : Z;
  getMonth : Z;
  getDate : Z;
  date_valid : valid_date getMonth getDate = true;
}.

(** [a.getTime() <= b.getTime()], on calendar dates. *)
Definition date_leb (a b : Date) : bool :=
  (getFullYear a <? getFullYear b)
  || ((getFullYear a =? getFullYear b)
      && ((getMonth a <? getMonth b)
          || ((getMonth a =? getMonth b) && (getDate a <=? getDate b)))).

Definition earlier (a b : Date) : Date := if date_leb a b then a else b.
Definition later (a b : Date) : Date := if date_leb a b then b else a.

(** [Math.min(...ds)] and [Math.max(...ds)] on a non-empty argument list
    [d :: ds]. *)
Definition Math_min (d : Date) (ds : list Date) : Date := foldl earlier d ds.
Definition Math_max (d : Date) (ds : list Date) : Date := foldl later d ds.

(** A date that is the first day of a month, as [curr] and [end] are:
    only its year and month (0..11) are read. *)
Record FirstOfMonth := mkFirst { fm_year : Z; fm_month : Z }.

(** [new Date(y, m, 1)].  The constructor normalises a month outside
    0..11 into the neighbouring years, and reads a year 0..99 as
    1900..1999. *)
Definition new_Date (y m : Z) : FirstOfMonth :=
  let y := if (0 <=? y) && (y <=? 99) then 1900 + y else y in
  {| fm_year := y + m `div` 12; fm_month := m `mod` 12 |}.

(** [curr.setMonth(curr.getMonth() + 1)]. *)
Definition setMonth_next (c : FirstOfMonth) : FirstOfMonth :=
  let m := fm_month c + 1 in
  {| fm_year := fm_year c + m `div` 12; fm_month := m `mod` 12 |}.

(** The number of the month on the time line; [curr <= end] compares
    the time values of two first days of months, that is, these numbers. *)
Definition month_number (c : FirstOfMonth) : Z := 12 * fm_year c + fm_month c.

(** ** Strings *)

(** [s.padStart(n, "0")] *)
Definition padStart0 (n : nat) (s : string) : string :=
  String.concat "" (replicate (n - String.length s) "0") +:+ s.

(** [s.includes(sub)] *)
Fixpoint includes (s sub : string) : bool :=
  String.prefix sub s
  || match s with
     | EmptyString => false
     | String _ s' => includes s' sub
     end.

(** ** Utilities of the component *)

Definition getWeekIndex (day : Z) : Z :=
  if day <=? 7 then 1 else if day <=? 14 then 2 else if day <=? 21 then 3 else 4.

Inductive ViewType := weekly | semi_monthly | monthly.

#[global] Instance ViewType_eq_dec : EqDecision ViewType.
Proof. solve_decision. Defined.

Definition first_half : string := "上半月".
Definition second_half : string := "下半月".

Definition getPeriodNameFromDate (date : Date) (viewType : ViewType) : string :=
  let y := getFullYear date in
  let m := getMonth date + 1 in
  let d := getDate date in
  match viewType with
  | monthly => pretty y +:+ "年" +:+ pretty m +:+ "月"
  | semi_monthly =>
      pretty y +:+ "年" +:+ pretty m +:+ "月 "
      +:+ (if getWeekIndex d <=? 2 then first_half else second_half)
  | weekly =>
      pretty y +:+ "年" +:+ pretty m +:+ "月 第" +:+ pretty (getWeekIndex d) +:+ "周"
  end.

(** ** The data of the pipeline *)

Inductive Field := f_income | f_expense | f_emergencyFund.

#[global] Instance Field_eq_dec : EqDecision Field.
Proof. solve_decision. Defined.

Section Pipeline.
Context {num : Type} `{!Number num}.

Record DataItem := mkItem {
  date : Date;
  amount : num;
  category : string;
}.

(** An element of the array [weeks]. *)
Record Week := mkWeek {
  year : Z;
  month : Z;
  week : Z;
  key : string;
  income : num;
  expense : num;
  emergencyFund : num;
}.

(** An element of [weeklyFullData]: [{ ...w, opening, closing, name }]. *)
Record BalancedWeek := mkBalanced {
  base : Week;
  opening : num;
  closing : num;
  name : string;
}.

(** A value of the object [map] of the aggregation. *)
Record Group := mkGroup {
  g_name : string;
  g_year : Z;
  g_month : Z;
  g_subType : string;
  g_income : num;
  g_expense : num;
  g_emergencyFund : num;
  g_opening : num;
  g_weeks : list BalancedWeek;
}.

(** An aggregated period:
    [{ ...it, emergencyFund: efValue, closing, net }]. *)
Record Aggregated := mkAggregated {
  a_name : string;
  a_year : Z;
  a_month : Z;
  a_subType : string;
  a_income : num;
  a_expense : num;
  a_emergencyFund : num;
  a_opening : num;
  a_weeks : list BalancedWeek;
  a_closing : num;
  a_net : num;
}.

(** An element of [aggregatedData]: a week as it is in the weekly view,
    an aggregated period in the other two. *)
Inductive Period :=
| PWeek (w : BalancedWeek)
| PAggregated (a : Aggregated).

(** Property reads on an element of [aggregatedData]; [None] is
    [undefined]. *)
Definition period_name (p : Period) : string :=
  match p with PWeek w => name w | PAggregated a => a_name a end.
Definition period_income (p : Period) : num :=
  match p with PWeek w => income (base w) | PAggregated a => a_income a end.
Definition period_expense (p : Period) : num :=
  match p with PWeek w => expense (base w) | PAggregated a => a_expense a end.
Definition period_emergencyFund (p : Period) : num :=
  match p with
  | PWeek w => emergencyFund (base w)
  | PAggregated a => a_emergencyFund a
  end.
Definition period_opening (p : Period) : num :=
  match p with PWeek w => opening w | PAggregated a => a_opening a end.
Definition period_closing (p : Period) : num :=
  match p with PWeek w => closing w | PAggregated a => a_closing a end.
Definition period_net (p : Period) : option num :=
  match p with PWeek _ => None | PAggregated a => Some (a_net a) end.

(** ** 1. The weekly ledger ([weeklyFullData]) *)

Definition INITIAL_BALANCE : num := nlit 1016000.

Definition week_key (y m w : Z) : string :=
  pretty y +:+ "-" +:+ padStart0 2 (pretty m) +:+ "-W" +:+ pretty w.

(** The body of [for (let w = 1; w <= 4; w++) weeks.push(...)]. *)
Definition push_weeks (y m : Z) (weeks : list Week) : list Week :=
  weeks ++ ((λ w, mkWeek y m w (week_key y m w) (nlit 0) (nlit 0) (nlit 0))
              <$> [1; 2; 3; 4]).

(** [while (curr <= end) { ...; curr.setMonth(curr.getMonth() + 1) }] *)
Equations? month_loop (curr end_ : FirstOfMonth) (weeks : list Week) : list Week
  by wf (Z.to_nat (month_number end_ - month_number curr + 1)) lt :=
month_loop curr end_ weeks with decide (month_number curr ≤ month_number end_) := {
  | left _ =>
      let y := fm_year curr in
      let m := fm_month curr + 1 in
      month_loop (setMonth_next curr) end_ (push_weeks y m weeks)
  | right _ => weeks }.
Proof.
  unfold month_number, setMonth_next in *; simpl.
  pose proof (Z.div_mod (fm_month curr + 1) 12). lia.
Qed.

Definition excluded (category : string) : bool :=
  includes category "期初余额" || includes category "现金备用".

Definition item_key (item : DataItem) : string :=
  week_key (getFullYear (date item)) (getMonth (date item) + 1)
           (getWeekIndex (getDate (date item))).

(** [target[field] += a] *)
Definition add_to (field : Field) (target : Week) (a : num) : Week :=
  match field with
  | f_income =>
      mkWeek (year target) (month target) (week target) (key target)
             (nadd (income target) a) (expense target) (emergencyFund target)
  | f_expense =>
      mkWeek (year target) (month target) (week target) (key target)
             (income target) (nadd (expense target) a) (emergencyFund target)
  | f_emergencyFund =>
      mkWeek (year target) (month target) (week target) (key target)
             (income target) (expense target) (nadd (emergencyFund target) a)
  end.

(** The callback of [items.forEach] in [populate]. *)
Definition populate_item (field : Field) (weeks : list Week) (item : DataItem)
  : list Week :=
  if bool_decide (field = f_income) && excluded (category item) then weeks
  else
    match list_find (λ w, key w = item_key item) weeks with
    | Some (i, target) => <[i := add_to field target (amount item)]> weeks
    | None => weeks
    end.

Definition populate (items : list DataItem) (field : Field) (weeks : list Week)
  : list Week :=
  foldl (populate_item field) weeks items.

Definition week_name (w : Week) : string :=
  pretty (year w) +:+ "年" +:+ pretty (month w) +:+ "月 第"
  +:+ pretty (week w) +:+ "周".

(** [weeks.map(w => ...)] with the running balance [bal]. *)
Fixpoint roll (bal : num) (weeks : list Week) : list BalancedWeek :=
  match weeks with
  | [] => []
  | w :: weeks' =>
      let opening := bal in
      let closing := nsub (nadd opening (income w)) (expense w) in
      mkBalanced w opening closing (week_name w) :: roll closing weeks'
  end.

(** The first days of the first and of the last month of the ledger. *)
Definition range_start (d : Date) (ds : list Date) : FirstOfMonth :=
  let minDate := Math_min d ds in
  new_Date (getFullYear minDate) (getMonth minDate).

Definition range_end (d : Date) (ds : list Date) (today : Date) : FirstOfMonth :=
  let maxDate := Math_max d (ds ++ [today]) in
  new_Date (getFullYear maxDate) (getMonth maxDate).

Definition weeklyFullData (incomes expenses emergencyFunds : list DataItem)
    (today : Date) : list BalancedWeek :=
  let allDates := date <$> (incomes ++ expenses ++ emergencyFunds) in
  match allDates with
  | [] => []
  | d :: ds =>
      let curr := range_start d ds in
      let end_ := range_end d ds today in
      if bool_decide (fm_year end_ - fm_year curr > 10) then []
      else
        let weeks := month_loop curr end_ [] in
        let weeks := populate incomes f_income weeks in
        let weeks := populate expenses f_expense weeks in
        let weeks := populate emergencyFunds f_emergencyFund weeks in
        roll INITIAL_BALANCE weeks
  end.

(** ** 2. The aggregation ([aggregatedData]) *)

(** The object [map]: its keys in insertion order, each with its value. *)
Fixpoint obj_get {V : Type} (map : list (string * V)) (k : string) : option V :=
  match map with
  | [] => None
  | (k', v) :: map' => if decide (k' = k) then Some v else obj_get map' k
  end.

(** [map[k] = v]: an existing key keeps its place, a new one comes last. *)
Fixpoint obj_set {V : Type} (map : list (string * V)) (k : string) (v : V)
  : list (string * V) :=
  match map with
  | [] => [(k, v)]
  | (k', v') :: map' =>
      if decide (k' = k) then (k, v) :: map' else (k', v') :: obj_set map' k v
  end.

Definition Object_values {V : Type} (map : list (string * V)) : list V := map.*2.

Definition sub_of (viewType : ViewType) (w : BalancedWeek) : string :=
  if bool_decide (viewType = semi_monthly)
  then (if week (base w) <=? 2 then first_half else second_half)
  else "".

Definition group_key (viewType : ViewType) (w : BalancedWeek) : string :=
  let y := year (base w) in
  let m := month (base w) in
  if bool_decide (viewType = semi_monthly)
  then pretty y +:+ "-" +:+ pretty m +:+ "-" +:+ sub_of viewType w
  else pretty y +:+ "-" +:+ pretty m.

Definition group_name (viewType : ViewType) (w : BalancedWeek) : string :=
  let y := year (base w) in
  let m := month (base w) in
  if bool_decide (viewType = semi_monthly)
  then pretty y +:+ "年" +:+ pretty m +:+ "月 " +:+ sub_of viewType w
  else pretty y +:+ "年" +:+ pretty m +:+ "月".

(** The group a week opens when its key is not in [map] yet. *)
Definition new_group (viewType : ViewType) (w : BalancedWeek) : Group :=
  mkGroup (group_name viewType w) (year (base w)) (month (base w))
          (sub_of viewType w) (nlit 0) (nlit 0) (nlit 0) (opening w) [].

(** [it.income += w.income; it.expense += w.expense; it.weeks.push(w)] *)
Definition add_week (it : Group) (w : BalancedWeek) : Group :=
  mkGroup (g_name it) (g_year it) (g_month it) (g_subType it)
          (nadd (g_income it) (income (base w)))
          (nadd (g_expense it) (expense (base w)))
          (g_emergencyFund it) (g_opening it) (g_weeks it ++ [w]).

(** The callback of [weeklyFullData.forEach]. *)
Definition group_week (viewType : ViewType) (map : list (string * Group))
    (w : BalancedWeek) : list (string * Group) :=
  let key := group_key viewType w in
  let it :=
    match obj_get map key with
    | Some it => it
    | None => new_group viewType w
    end in
  obj_set map key (add_week it w).

(** [weeklyFullData.find(w => w.year === y && w.month === m && w.week === k)] *)
Definition find_week (weeklyFullData : list BalancedWeek) (y m k : Z)
  : option BalancedWeek :=
  List.find (λ w, (year (base w) =? y) && (month (base w) =? m)
                  && (week (base w) =? k)) weeklyFullData.

Definition ef_of (w : option BalancedWeek) : num :=
  match w with
  | Some w => emergencyFund (base w)
  | None => nlit 0
  end.

Definition efValue (viewType : ViewType) (weeklyFullData : list BalancedWeek)
    (it : Group) : num :=
  match viewType with
  | semi_monthly =>
      if decide (g_subType it = first_half)
      then ef_of (find_week weeklyFullData (g_year it) (g_month it) 2)
      else if decide (g_subType it = second_half)
      then ef_of (find_week weeklyFullData (g_year it) (g_month it) 4)
      else nlit 0
  | monthly => ef_of (find_week weeklyFullData (g_year it) (g_month it) 4)
  | weekly => nlit 0
  end.

(** The callback of [Object.values(map).map]; it fails, as the read of
    [.closing] does, when the group has no week. *)
Definition finish (viewType : ViewType) (weeklyFullData : list BalancedWeek)
    (it : Group) : option Aggregated :=
  match last (g_weeks it) with
  | Some w_last =>
      Some (mkAggregated (g_name it) (g_year it) (g_month it) (g_subType it)
              (g_income it) (g_expense it)
              (efValue viewType weeklyFullData it)
              (g_opening it) (g_weeks it)
              (closing w_last)
              (nsub (g_income it) (g_expense it)))
  | None => None
  end.

Definition aggregatedData (weeklyFullData : list BalancedWeek)
    (viewType : ViewType) : option (list Period) :=
  match viewType with
  | weekly => Some (PWeek <$> weeklyFullData)
  | _ =>
      let map := foldl (group_week viewType) [] weeklyFullData in
      fmap PAggregated
        <$> mapM (finish viewType weeklyFullData) (Object_values map)
  end.

(** ** 3. The cards on display and the navigation *)

(** [l.findIndex(p)], [-1] when no element satisfies [p]. *)
Definition findIndex {A : Type} (P : A → Prop) `{!∀ x, Decision (P x)}
    (l : list A) : Z :=
  match list_find P l with
  | Some (i, _) => Z.of_nat i
  | None => -1
  end.

(** [l.slice(start, end)], [end] omitted when [None]. *)
Definition slice {A : Type} (l : list A) (start : Z) (end_ : option Z) : list A :=
  let len := Z.of_nat (length l) in
  let rel k := if k <? 0 then Z.max (len + k) 0 else Z.min k len in
  let from := rel start in
  let to := match end_ with Some e => rel e | None => len end in
  take (Z.to_nat (to - from)) (drop (Z.to_nat from) l).

(** [aggregatedData[i].name]; [None] when there is no such element, where
    the read throws. *)
Definition name_at (aggregatedData : list Period) (i : Z) : option string :=
  if i <? 0 then None else period_name <$> aggregatedData !! Z.to_nat i.

(** The effect that picks the default period: the value of
    [selectedFilter] after it. *)
Definition defaultAnchor (aggregatedData : list Period) (viewType : ViewType)
    (today : Date) (selectedFilter : string) : option string :=
  if bool_decide (Z.of_nat (length aggregatedData) > 0) then
    let todayName := getPeriodNameFromDate today viewType in
    let exists_ :=
      existsb (λ d, bool_decide (period_name d = todayName)) aggregatedData in
    if exists_ then Some todayName
    else name_at aggregatedData (Z.of_nat (length aggregatedData) - 1)
  else Some selectedFilter.

Definition displayBlocks (isDataLoaded : bool) (aggregatedData : list Period)
    (selectedFilter : string) : list Period :=
  if negb isDataLoaded then []
  else
    let idx := findIndex (λ d, period_name d = selectedFilter) aggregatedData in
    if idx =? -1 then slice aggregatedData (-4) None
    else slice aggregatedData idx (Some (idx + 4)).

(** The state the drag handler reads and writes. *)
Record DragState := mkDrag {
  dragStartX : option Z;
  isDragging : bool;
  selectedFilter : string;
}.

Definition threshold : Z := 100.

(** The state after the handler; [None] when a read of [.name] throws. *)
Definition handleMouseMove (isDataLoaded : bool) (aggregatedData : list Period)
    (st : DragState) (clientX : Z) : option DragState :=
  match dragStartX st with
  | None => Some st
  | Some startX =>
      if negb (isDragging st) || negb isDataLoaded then Some st
      else
        let diff := clientX - startX in
        if Z.abs diff >? threshold then
          let currentIndex :=
            findIndex (λ d, period_name d = selectedFilter st) aggregatedData in
          selected ←
            (if diff >? 0 then
               if currentIndex >? 0
               then name_at aggregatedData (currentIndex - 1)
               else Some (selectedFilter st)
             else
               if currentIndex <? Z.of_nat (length aggregatedData) - 1
               then name_at aggregatedData (currentIndex + 1)
               else Some (selectedFilter st));
          Some (mkDrag (Some clientX) (isDragging st) selected)
        else Some st
  end.

End Pipeline.

(** ** Vocabulary of the statements *)

Section Vocabulary.
Context {num : Type} `{!Number num}.

(** The four buckets one turn of the month loop pushes for [c]. *)
Definition month_weeks (c : FirstOfMonth) : list (Week (num:=num)) :=
  push_weeks (fm_year c) (fm_month c + 1) [].

(** [n] consecutive months from [c] on. *)
Fixpoint months_from (c : FirstOfMonth) (n : nat) : list FirstOfMonth :=
  match n with
  | O => []
  | S n => c :: months_from (setMonth_next c) n
  end.

(** The months of the range, both ends included. *)
Definition months_between (s e : FirstOfMonth) : list FirstOfMonth :=
  months_from s (Z.to_nat (month_number e - month_number s + 1)).


(** Whether [populate items field] adds the amount of [item]. *)
Definition counted (field : Field) (item : DataItem (num:=num)) : bool :=
  negb (bool_decide (field = f_income) && excluded (category item)).

(** The amounts [populate items field] adds to the bucket of key [k],
    in the order of [items]. *)
Definition amounts_for (field : Field) (k : string)
    (items : list (DataItem (num:=num))) : list num :=
  amount <$> filter (λ item, counted field item = true ∧ item_key item = k) items.

Definition field_of (field : Field) (w : Week (num:=num)) : num :=
  match field with
  | f_income => income w
  | f_expense => expense w
  | f_emergencyFund => emergencyFund w
  end.

(** [z + a1 + ... + an], added from the left as [+=] does. *)
Definition sum_from (z : num) (l : list num) : num := foldl nadd z l.

(** The date of a bucket: its year, month (1..12) and week (1..4). *)
Definition slot (w : Week (num:=num)) : Z * Z * Z := (year w, month w, week w).

(** What holds of every bucket the loop generates. *)
Definition bucket_ok (w : Week (num:=num)) : Prop :=
  1 ≤ month w ≤ 12 ∧ 1 ≤ week w ≤ 4
  ∧ key w = week_key (year w) (month w) (week w).

(** The buckets of the ledger before the balance is rolled. *)
Definition ledger_weeks (incomes expenses emergencyFunds : list DataItem)
    (s e : FirstOfMonth) : list (Week (num:=num)) :=
  populate emergencyFunds f_emergencyFund
    (populate expenses f_expense
       (populate incomes f_income (months_between s e ≫= month_weeks))).

(** What every value of [map] satisfies: it has a week, and in the
    half-month view it is a first or a second half. *)
Definition group_ok (viewType : ViewType) (it : Group (num:=num)) : Prop :=
  g_weeks it ≠ []
  ∧ (viewType = semi_monthly →
       g_subType it = first_half ∨ g_subType it = second_half).

(** The buckets of month [m] of year [y], among the dates of buckets. *)
Definition in_month (y m : Z) (s : Z * Z * Z) : Prop := s.1.1 = y ∧ s.1.2 = m.

#[global] Instance in_month_dec y m s : Decision (in_month y m s).
Proof. unfold in_month. apply _. Defined.

End Vocabulary.

(** ** Vocabulary of the key lemmas *)


(** The characters of a string. *)
Definition chars (s : string) : list ascii := String.list_ascii_of_string s.

(** What follows the year in the key of a bucket. *)
Definition week_tail (mw : Z * Z) : string :=
  "-" +:+ padStart0 2 (pretty mw.1) +:+ "-W" +:+ pretty mw.2.

(** The months 1..12 paired with the weeks 1..4. *)
Definition week_slots : list (Z * Z) := m ← seqZ 1 12; w ← seqZ 1 4; [(m, w)].

(** The place of a bucket on the time line, counted in weeks of a month. *)
Definition slot_number (s : Z * Z * Z) : Z :=
  4 * (12 * s.1.1 + (s.1.2 - 1)) + (s.2 - 1).

(** A first of a month as [getMonth] gives it. *)
Definition fm_wf (c : FirstOfMonth) : Prop := 0 ≤ fm_month c ≤ 11.

(** The series [populate] reads for a field. *)
Definition items_for {num : Type} (field : Field)
    (incomes expenses emergencyFunds : list (DataItem (num:=num)))
  : list (DataItem (num:=num)) :=
  match field with
  | f_income => incomes
  | f_expense => expenses
  | f_emergencyFund => emergencyFunds
  end.

(** ** Vocabulary of the month view *)

Section MonthView.
Context {num : Type} `{!Number num}.

(** The value [map] holds for a month once its four weeks are in. *)
Definition month_group (w1 w2 w3 w4 : BalancedWeek (num:=num)) : Group :=
  add_week (add_week (add_week (add_week (new_group monthly w1) w1) w2) w3) w4.

(** The entries of [map] for a ledger read four weeks at a time. *)
Fixpoint month_groups (ws : list (BalancedWeek (num:=num)))
  : list (string * Group (num:=num)) :=
  match ws with
  | w1 :: w2 :: w3 :: w4 :: rest =>
      (group_key monthly w1, month_group w1 w2 w3 w4) :: month_groups rest
  | _ => []
  end.

(** A ledger made of months of four weeks, no month coming twice. *)
Inductive month_blocks : list (BalancedWeek (num:=num)) → Prop :=
| blocks_nil : month_blocks []
| blocks_cons (y m : Z) w1 w2 w3 w4 rest :
    1 ≤ m ≤ 12 →
    slot (base w1) = (y, m, 1) →
    slot (base w2) = (y, m, 2) →
    slot (base w3) = (y, m, 3) →
    slot (base w4) = (y, m, 4) →
    Forall (λ w, 1 ≤ month (base w) ≤ 12
                 ∧ (year (base w), month (base w)) ≠ (y, m)) rest →
    month_blocks rest →
    month_blocks (w1 :: w2 :: w3 :: w4 :: rest).

End MonthView.

(** ** 4. The drag session, the cards and the balance card *)

Section Component.
Context {num : Type} `{!Number num}.

(** [handleMouseDown], on an event with [e.button] and [e.clientX]. *)
Definition handleMouseDown (isDataLoaded : bool) (st : DragState)
    (button clientX : Z) : DragState :=
  if negb (button =? 0) || negb isDataLoaded then st
  else mkDrag (Some clientX) true (selectedFilter st).

(** [handleMouseUp], also bound to [onMouseLeave]. *)
Definition handleMouseUp (st : DragState) : DragState :=
  mkDrag None false (selectedFilter st).

(** The mouse events the root element listens to. *)
Inductive MouseEvent :=
| MouseDown (button clientX : Z)
| MouseMove (clientX : Z)
| MouseUp
| MouseLeave.

Definition handle (isDataLoaded : bool) (aggregatedData : list (Period (num:=num)))
    (st : DragState) (e : MouseEvent) : option DragState :=
  match e with
  | MouseDown button clientX =>
      Some (handleMouseDown isDataLoaded st button clientX)
  | MouseMove clientX => handleMouseMove isDataLoaded aggregatedData st clientX
  | MouseUp | MouseLeave => Some (handleMouseUp st)
  end.

(** A sequence of events, handled one after the other on the same
    periods. *)
Fixpoint handle_all (isDataLoaded : bool)
    (aggregatedData : list (Period (num:=num))) (st : DragState)
    (es : list MouseEvent) : option DragState :=
  match es with
  | [] => Some st
  | e :: es =>
      st' ← handle isDataLoaded aggregatedData st e;
      handle_all isDataLoaded aggregatedData st' es
  end.

(** The figure of the balance card:
    [aggregatedData.length > 0
       ? aggregatedData[aggregatedData.length - 1].closing : 0]. *)
Definition aggregate_balance (aggregatedData : list (Period (num:=num))) : num :=
  match last aggregatedData with
  | Some last_period => period_closing last_period
  | None => nlit 0
  end.


(** The flags of a card of [displayBlocks]. *)
Definition special_names : list string :=
  ["2026年1月 第4周"; "2026年2月 第1周"; "2026年2月 第2周"; "2026年2月 第3周"].

Definition isSelected (period : Period (num:=num)) (selectedFilter : string) : bool :=
  bool_decide (period_name period = selectedFilter).

Definition isToday (period : Period (num:=num)) (viewType : ViewType)
    (today : Date) : bool :=
  bool_decide (period_name period = getPeriodNameFromDate today viewType).

Definition isSpecialHighlight (period : Period (num:=num)) : bool :=
  bool_decide (period_name period ∈ special_names).

Definition shouldUseHighStyle (period : Period (num:=num))
    (selectedFilter : string) : bool :=
  isSelected period selectedFilter || isSpecialHighlight period.

End Component.

(** ** Vocabulary of the further statements *)

Section MoreVocabulary.
Context {num : Type} `{!Number num}.

(** Weeks that follow one another from the balance [bal]. *)
Fixpoint chained (bal : num) (ws : list (BalancedWeek (num:=num))) : Prop :=
  match ws with
  | [] => True
  | b :: ws => opening b = bal ∧ chained (closing b) ws
  end.

(** Aggregated periods that follow one another from the balance [bal]. *)
Fixpoint periods_chained (bal : num) (l : list (Aggregated (num:=num))) : Prop :=
  match l with
  | [] => True
  | a :: l => a_opening a = bal ∧ periods_chained (a_closing a) l
  end.

(** The value [map] holds for a half month once its two weeks are in. *)
Definition half_group (w1 w2 : BalancedWeek (num:=num)) : Group :=
  add_week (add_week (new_group semi_monthly w1) w1) w2.

(** The entries of [map] for a ledger read two weeks at a time. *)
Fixpoint half_groups (ws : list (BalancedWeek (num:=num)))
  : list (string * Group (num:=num)) :=
  match ws with
  | w1 :: w2 :: rest =>
      (group_key semi_monthly w1, half_group w1 w2) :: half_groups rest
  | _ => []
  end.

(** The half month a week of the month belongs to: 1 or 2. *)
Definition half_of (k : Z) : Z := if k <=? 2 then 1 else 2.

(** A ledger made of half months of two weeks, none coming twice. *)
Inductive half_blocks : list (BalancedWeek (num:=num)) → Prop :=
| halves_nil : half_blocks []
| halves_cons (y m k : Z) w1 w2 rest :
    1 ≤ m ≤ 12 →
    k = 1 ∨ k = 3 →
    slot (base w1) = (y, m, k) →
    slot (base w2) = (y, m, k + 1) →
    Forall (λ w, 1 ≤ month (base w) ≤ 12
                 ∧ (year (base w), month (base w), half_of (week (base w)))
                   ≠ (y, m, half_of k)) rest →
    half_blocks rest →
    half_blocks (w1 :: w2 :: rest).

(** What the balance is made of: a bucket without its emergency fund,
    and a week of the ledger without it. *)
Definition books (w : Week (num:=num)) : Z * Z * Z * string * num * num :=
  (slot w, key w, income w, expense w).

Definition balance_sheet (b : BalancedWeek (num:=num))
  : Z * Z * Z * string * num * num * num * num * string :=
  (books (base b), opening b, closing b, name b).

End MoreVocabulary.

(** What follows the year in the name of a week. *)
Definition week_name_tail (mw : Z * Z) : string :=
  "年" +:+ pretty mw.1 +:+ "月 第" +:+ pretty mw.2 +:+ "周".

(** What follows the year in the name of a month. *)
Definition month_name_tail (m : Z) : string := "年" +:+ pretty m +:+ "月".

(** The sub-type of the half month week [k] lies in. *)
Definition half_name (k : Z) : string :=
  if k <=? 2 then first_half else second_half.

(** What follows the year in the name of a half month, by the month and
    the first week of the half. *)
Definition semi_name_tail (mk : Z * Z) : string :=
  "年" +:+ pretty mk.1 +:+ "月 " +:+ half_name mk.2.

Definition semi_slots : list (Z * Z) := m ← seqZ 1 12; k ← [1; 3]; [(m, k)].

(** What can follow the year in the name of a period, in any view. *)
Definition name_tails : list string :=
  (month_name_tail <$> seqZ 1 12) ++ (semi_name_tail <$> semi_slots)
  ++ (week_name_tail <$> week_slots).

(** The weeks the cards single out, by year, month and week. *)
Definition special_slots : list (Z * Z * Z) :=
  [(2026, 1, 4); (2026, 2, 1); (2026, 2, 2); (2026, 2, 3)].

(** The period a label stands for, after the year: the view (0 for the
    month view, 1 for the half-month view, 2 for the weekly view), the
    month, and the week, the first week of the half, or 0. *)
Definition label_code (date : Date) (viewType : ViewType) : Z * Z * Z :=
  let m := getMonth date + 1 in
  let k := getWeekIndex (getDate date) in
  match viewType with
  | monthly => (0, m, 0)
  | semi_monthly => (1, m, if k <=? 2 then 1 else 3)
  | weekly => (2, m, k)
  end.

Definition label_codes : list (Z * Z * Z) :=
  ((λ m, (0, m, 0)) <$> seqZ 1 12)
  ++ ((λ mk : Z * Z, (1, mk.1, mk.2)) <$> semi_slots)
  ++ ((λ mk : Z * Z, (2, mk.1, mk.2)) <$> week_slots).

Definition code_tail (c : Z * Z * Z) : string :=
  if c.1.1 =? 0 then month_name_tail c.1.2
  else if c.1.1 =? 1 then semi_name_tail (c.1.2, c.2)
  else week_name_tail (c.1.2, c.2).

(** The first byte of the character that follows the year in a name. *)
Definition year_mark : ascii := "229"%char.

(** The characters a printed integer is made of. *)
Definition number_chars : list ascii := chars "-0123456789".

(** ** Vocabulary of the views of the ledger *)

Section Views.
Context {num : Type} `{!Number num}.

(** The weeks of one period: the first of them and those that follow. *)
Definition chunk_weeks (c : BalancedWeek (num:=num) * list BalancedWeek)
  : list BalancedWeek := c.1 :: c.2.

Definition chunk_last (c : BalancedWeek (num:=num) * list BalancedWeek)
  : BalancedWeek := default c.1 (last c.2).

(** A list of weeks cut in fours, and in twos. *)
Fixpoint chunks4 (ws : list (BalancedWeek (num:=num)))
  : list (BalancedWeek * list BalancedWeek) :=
  match ws with
  | w1 :: w2 :: w3 :: w4 :: rest => (w1, [w2; w3; w4]) :: chunks4 rest
  | _ => []
  end.

Fixpoint chunks2 (ws : list (BalancedWeek (num:=num)))
  : list (BalancedWeek * list BalancedWeek) :=
  match ws with
  | w1 :: w2 :: rest => (w1, [w2]) :: chunks2 rest
  | _ => []
  end.

Definition chunks (viewType : ViewType) (ws : list (BalancedWeek (num:=num)))
  : list (BalancedWeek * list BalancedWeek) :=
  match viewType with
  | monthly => chunks4 ws
  | semi_monthly => chunks2 ws
  | weekly => []
  end.

(** The value [map] holds for a period once the weeks of [c] are in. *)
Definition group_from (viewType : ViewType)
    (c : BalancedWeek (num:=num) * list BalancedWeek) : Group :=
  foldl add_week (new_group viewType c.1) (chunk_weeks c).

(** The aggregated period of the weeks of [c], as the aggregation of the
    weekly sequence [ws] computes it. *)
Definition period_from (viewType : ViewType) (ws : list (BalancedWeek (num:=num)))
    (c : BalancedWeek (num:=num) * list BalancedWeek) : Aggregated :=
  let income_ := sum_from (nlit 0) (income ∘ base <$> chunk_weeks c) in
  let expense_ := sum_from (nlit 0) (expense ∘ base <$> chunk_weeks c) in
  mkAggregated (group_name viewType c.1) (year (base c.1)) (month (base c.1))
    (sub_of viewType c.1) income_ expense_
    (efValue viewType ws (group_from viewType c))
    (opening c.1) (chunk_weeks c) (closing (chunk_last c))
    (nsub income_ expense_).

(** The weeks of the month a chunk of the view makes up: 1 to 4 in the
    month view, 1 and 2 or 3 and 4 in the half-month view. *)
Definition chunk_slots (viewType : ViewType)
    (c : BalancedWeek (num:=num) * list BalancedWeek) : Prop :=
  ∃ y m : Z,
    1 ≤ m ≤ 12
    ∧ match viewType with
      | monthly =>
          slot ∘ base <$> chunk_weeks c
          = [(y, m, 1); (y, m, 2); (y, m, 3); (y, m, 4)]
      | semi_monthly =>
          slot ∘ base <$> chunk_weeks c = [(y, m, 1); (y, m, 2)]
          ∨ slot ∘ base <$> chunk_weeks c = [(y, m, 3); (y, m, 4)]
      | weekly => False
      end.

End Views.

(** ** Sample ledgers

    The scenario of the specification: an income of 5000 on 5 March 2024
    and an expense of 2000 on 10 March 2024, read on 20 March 2024. *)

Definition sample_incomes : list (DataItem (num:=Z)) :=
  [mkItem (mkDate 2024 2 5 eq_refl) 5000 "sales"].

Definition sample_expenses : list (DataItem (num:=Z)) :=
  [mkItem (mkDate 2024 2 10 eq_refl) 2000 "rent"].

Definition sample_today : Date := mkDate 2024 2 20 eq_refl.

Definition sample_ledger : list (BalancedWeek (num:=Z)) :=
  weeklyFullData sample_incomes sample_expenses [] sample_today.


(** Emergency-fund rows of 10 in week 1 and 20 in week 4 of March 2024. *)
Definition sample_funds : list (DataItem (num:=Z)) :=
  [mkItem (mkDate 2024 2 3 eq_refl) 10 "reserve";
   mkItem (mkDate 2024 2 25 eq_refl) 20 "期初余额-2024"].




(** A ledger of three months: incomes in January and February 2024 and
    an emergency-fund row in March, read on 20 March 2024. *)
Definition quarter_incomes : list (DataItem (num:=Z)) :=
  [mkItem (mkDate 2024 0 5 eq_refl) 5000 "sales";
   mkItem (mkDate 2024 1 20 eq_refl) 700 "sales"].

Definition quarter_ledger : list (BalancedWeek (num:=Z)) :=
  weeklyFullData quarter_incomes [] sample_funds sample_today.

(** The emergency-fund rows with other amounts and categories. *)
Definition other_funds : list (DataItem (num:=Z)) :=
  [mkItem (mkDate 2024 2 3 eq_refl) 999 "loan";
   mkItem (mkDate 2024 2 25 eq_refl) 1 "reserve"].

(** A drag that started at x = 500 with the anchor on week 2 of March
    2024. *)
Definition march_drag : DragState := mkDrag (Some 500) true "2024年3月 第2周".


(** * Properties *)

Section Properties.
Context {num : Type} `{!Number num}.
Implicit Types (w : Week (num:=num)) (weeks : list (Week (num:=num))).
Implicit Types (bal : num) (ps : list (Period (num:=num))).

(** ** Substrings *)




(** ** Keys are injective *)

Lemma chars_app (s t : string) : chars (s +:+ t) = chars s ++ chars t.
Proof.
  unfold chars. induction s as [|a s IH]; simpl; [done|]. by rewrite IH.
Qed.

Lemma chars_inj (s t : string) : chars s = chars t → s = t.
Proof.
  unfold chars. intros H.
  rewrite <- (String.string_of_list_ascii_of_string s),
    <- (String.string_of_list_ascii_of_string t).
  by rewrite H.
Qed.

Lemma inj_on_NoDup {A B : Type} (f : A → B) (l : list A) (x y : A) :
  NoDup (f <$> l) → x ∈ l → y ∈ l → f x = f y → x = y.
Proof.
  induction l as [|a l IH]; simpl; [by intros _ ?%elem_of_nil|].
  rewrite NoDup_cons.
  intros [Ha Hl] [->|Hx]%elem_of_cons [->|Hy]%elem_of_cons Hf.
  - done.
  - destruct Ha. rewrite Hf. by apply list_elem_of_fmap_2.
  - destruct Ha. rewrite <- Hf. by apply list_elem_of_fmap_2.
  - by apply IH.
Qed.

Lemma week_tails_NoDup : NoDup (chars ∘ week_tail <$> week_slots).
Proof. apply (bool_decide_unpack _). by vm_compute. Qed.

Lemma week_tails_length :
  Forall (λ mw, length (chars (week_tail mw)) = 6%nat) week_slots.
Proof. apply (bool_decide_unpack _). by vm_compute. Qed.

Lemma month_tails_NoDup : NoDup ((λ m : Z, chars (pretty m)) <$> seqZ 1 12).
Proof. apply (bool_decide_unpack _). by vm_compute. Qed.

Lemma month_tails_no_dash :
  Forall (λ m : Z, "-"%char ∉ chars (pretty m)) (seqZ 1 12).
Proof. apply (bool_decide_unpack _). by vm_compute. Qed.

Lemma elem_of_week_slots (m w : Z) :
  1 ≤ m ≤ 12 → 1 ≤ w ≤ 4 → (m, w) ∈ week_slots.
Proof.
  intros Hm Hw. unfold week_slots.
  apply list_elem_of_bind. exists m. split; [|apply elem_of_seqZ; lia].
  apply list_elem_of_bind. exists w. split; [|apply elem_of_seqZ; lia].
  apply list_elem_of_here.
Qed.

(** The key of a bucket determines its year, month and week. *)
Lemma week_key_inj (y m w y' m' w' : Z) :
  1 ≤ m ≤ 12 → 1 ≤ w ≤ 4 → 1 ≤ m' ≤ 12 → 1 ≤ w' ≤ 4 →
  week_key y m w = week_key y' m' w' →
  y = y' ∧ m = m' ∧ w = w'.
Proof.
  intros Hm Hw Hm' Hw' Hkey.
  pose proof (elem_of_week_slots m w Hm Hw) as Hin.
  pose proof (elem_of_week_slots m' w' Hm' Hw') as Hin'.
  change (pretty y +:+ week_tail (m, w) = pretty y' +:+ week_tail (m', w'))
    in Hkey.
  apply (f_equal chars) in Hkey. rewrite !chars_app in Hkey.
  apply app_inj_2 in Hkey as [Hy Htail].
  - apply chars_inj, (inj pretty) in Hy.
    pose proof (inj_on_NoDup (chars ∘ week_tail) week_slots _ _
                  week_tails_NoDup Hin Hin' Htail) as [= -> ->].
    done.
  - pose proof week_tails_length as Hlen.
    rewrite Forall_forall in Hlen. by rewrite (Hlen _ Hin), (Hlen _ Hin').
Qed.

(** The key of a month in the month view determines the month. *)
Lemma month_key_inj (y m y' m' : Z) :
  1 ≤ m ≤ 12 → 1 ≤ m' ≤ 12 →
  pretty y +:+ "-" +:+ pretty m = pretty y' +:+ "-" +:+ pretty m' →
  y = y' ∧ m = m'.
Proof.
  intros Hm Hm' Hkey.
  assert (m ∈ seqZ 1 12) as Hin by (apply elem_of_seqZ; lia).
  assert (m' ∈ seqZ 1 12) as Hin' by (apply elem_of_seqZ; lia).
  apply (f_equal chars) in Hkey. rewrite !chars_app in Hkey.
  change (chars "-") with ["-"%char] in Hkey. simpl in Hkey.
  pose proof month_tails_no_dash as Hdash. rewrite Forall_forall in Hdash.
  apply not_elem_of_app_cons_inv_r in Hkey as (Hy & _ & Htail);
    [|by apply Hdash..].
  apply chars_inj, (inj pretty) in Hy.
  split; [done|].
  by apply (inj_on_NoDup (λ m : Z, chars (pretty m)) (seqZ 1 12) _ _
              month_tails_NoDup Hin Hin').
Qed.

(** ** The month loop *)

Lemma setMonth_next_number (c : FirstOfMonth) :
  month_number (setMonth_next c) = month_number c + 1.
Proof.
  unfold month_number, setMonth_next. simpl.
  pose proof (Z.div_mod (fm_month c + 1) 12). lia.
Qed.

Lemma month_loop_unfold_step (curr end_ : FirstOfMonth) weeks :
  month_loop curr end_ weeks
  = if decide (month_number curr ≤ month_number end_)
    then month_loop (setMonth_next curr) end_
           (push_weeks (fm_year curr) (fm_month curr + 1) weeks)
    else weeks.
Proof.
  rewrite month_loop_equation_1.
  destruct (decide (month_number curr ≤ month_number end_)); by simp month_loop.
Qed.

Lemma push_weeks_app (c : FirstOfMonth) weeks :
  push_weeks (fm_year c) (fm_month c + 1) weeks = weeks ++ month_weeks c.
Proof. done. Qed.

(** The loop appends the four buckets of every month of the range. *)
Lemma month_loop_spec (curr end_ : FirstOfMonth) weeks :
  month_loop curr end_ weeks
  = weeks ++ (months_between curr end_ ≫= month_weeks).
Proof.
  unfold months_between.
  remember (Z.to_nat (month_number end_ - month_number curr + 1)) as n eqn:Hn.
  revert curr weeks Hn. induction n as [|n IH]; intros curr weeks Hn.
  - rewrite month_loop_unfold_step, decide_False by lia.
    simpl. by rewrite app_nil_r.
  - rewrite month_loop_unfold_step, decide_True by lia.
    rewrite IH by (rewrite setMonth_next_number; lia).
    rewrite push_weeks_app. simpl. by rewrite <- app_assoc.
Qed.

Lemma months_from_length (c : FirstOfMonth) (n : nat) :
  length (months_from c n) = n.
Proof. revert c. induction n as [|n IH]; intros c; simpl; [done|]. by rewrite IH. Qed.

Lemma month_weeks_bind_length (l : list FirstOfMonth) :
  length (l ≫= month_weeks (num:=num)) = (4 * length l)%nat.
Proof.
  induction l as [|c l IH]; [done|].
  rewrite bind_cons, length_app, IH. simpl. lia.
Qed.

(** ** The generated buckets *)

Lemma new_Date_wf (y m : Z) : fm_wf (new_Date y m).
Proof.
  unfold fm_wf, new_Date. simpl.
  pose proof (Z.mod_pos_bound m 12). lia.
Qed.

Lemma setMonth_next_wf (c : FirstOfMonth) : fm_wf (setMonth_next c).
Proof.
  unfold fm_wf, setMonth_next. simpl.
  pose proof (Z.mod_pos_bound (fm_month c + 1) 12). lia.
Qed.

Lemma months_from_wf (c : FirstOfMonth) (n : nat) :
  fm_wf c → Forall fm_wf (months_from c n).
Proof.
  revert c. induction n as [|n IH]; intros c Hc; simpl; constructor; [done|].
  apply IH, setMonth_next_wf.
Qed.

Lemma months_from_number (c c' : FirstOfMonth) (n : nat) :
  c' ∈ months_from c n →
  month_number c ≤ month_number c' < month_number c + Z.of_nat n.
Proof.
  revert c. induction n as [|n IH]; intros c; simpl.
  - by intros ?%elem_of_nil.
  - intros [->|Hin]%elem_of_cons; [lia|].
    apply IH in Hin. rewrite setMonth_next_number in Hin. lia.
Qed.

Lemma month_weeks_slots (c : FirstOfMonth) :
  slot <$> month_weeks (num:=num) c
  = (λ k, (fm_year c, fm_month c + 1, k)) <$> [1; 2; 3; 4].
Proof. done. Qed.

Lemma month_weeks_zero (c : FirstOfMonth) :
  Forall (λ w, ∀ field, field_of field w = nlit 0) (month_weeks (num:=num) c).
Proof. repeat constructor; by intros []. Qed.

(** The buckets follow one another on the time line without a gap. *)
Lemma months_slot_numbers (c : FirstOfMonth) (n : nat) :
  slot_number ∘ slot <$> (months_from c n ≫= month_weeks (num:=num))
  = seqZ (4 * month_number c) (4 * Z.of_nat n).
Proof.
  revert c. induction n as [|n IH]; intros c; [done|].
  cbn [months_from]. rewrite bind_cons, fmap_app, IH, setMonth_next_number.
  replace (4 * Z.of_nat (S n)) with (4 + 4 * Z.of_nat n) by lia.
  rewrite seqZ_app by lia.
  replace (4 * (month_number c + 1)) with (4 * month_number c + 4) by lia.
  f_equal. unfold slot_number, month_number, seqZ; simpl.
  repeat (f_equal; try lia).
Qed.

Lemma months_slots_NoDup (c : FirstOfMonth) (n : nat) :
  NoDup (slot_number ∘ slot <$> (months_from c n ≫= month_weeks (num:=num))).
Proof. rewrite months_slot_numbers. apply NoDup_seqZ. Qed.

Lemma months_buckets_ok (l : list FirstOfMonth) :
  Forall fm_wf l → Forall bucket_ok (l ≫= month_weeks (num:=num)).
Proof.
  induction 1 as [|c l Hc Hl IH]; [constructor|].
  rewrite bind_cons. apply Forall_app. split; [|done].
  unfold fm_wf in Hc. repeat constructor; simpl; lia.
Qed.

Lemma bucket_key_inj w w' :
  bucket_ok w → bucket_ok w' → key w = key w' → slot w = slot w'.
Proof.
  intros (Hm & Hw & ->) (Hm' & Hw' & ->) Hkey.
  apply week_key_inj in Hkey as (Hy & Hmm & Hww); [|done..].
  unfold slot. by rewrite Hy, Hmm, Hww.
Qed.

Lemma months_keys_NoDup (c : FirstOfMonth) (n : nat) :
  fm_wf c → NoDup (key <$> (months_from c n ≫= month_weeks (num:=num))).
Proof.
  intros Hc.
  pose proof (months_slots_NoDup c n) as Hnd.
  pose proof (months_buckets_ok _ (months_from_wf c n Hc)) as Hok.
  rewrite Forall_forall in Hok.
  apply NoDup_fmap_2_strong; [|by eapply NoDup_fmap_1].
  intros w w' Hw Hw' Hkey.
  apply (inj_on_NoDup (slot_number ∘ slot) _ w w' Hnd Hw Hw'). simpl.
  f_equal. apply bucket_key_inj; auto.
Qed.

(** ** [populate] keeps the buckets in place *)

Lemma add_to_slot field w (a : num) : slot (add_to field w a) = slot w.
Proof. by destruct field. Qed.

Lemma add_to_key field w (a : num) : key (add_to field w a) = key w.
Proof. by destruct field. Qed.

Lemma populate_item_length field weeks (item : DataItem) :
  length (populate_item field weeks item) = length weeks.
Proof.
  unfold populate_item. case_match; [done|].
  destruct (list_find _ weeks) as [[i target]|]; [|done].
  by rewrite length_insert.
Qed.

Lemma populate_length (items : list DataItem) field weeks :
  length (populate items field weeks) = length weeks.
Proof.
  unfold populate. revert weeks.
  induction items as [|item items IH]; intros weeks; simpl; [done|].
  by rewrite IH, populate_item_length.
Qed.

(** ** What [populate] adds to a bucket *)

Lemma populate_item_keys field weeks (item : DataItem) :
  key <$> populate_item field weeks item = key <$> weeks.
Proof.
  unfold populate_item. case_match; [done|].
  destruct (list_find _ weeks) as [[i target]|] eqn:Hfind; [|done].
  apply list_find_Some in Hfind as (Hi & _ & _).
  rewrite list_fmap_insert, add_to_key.
  apply list_insert_id. by rewrite list_lookup_fmap, Hi.
Qed.

Lemma populate_item_slots field weeks (item : DataItem) :
  slot <$> populate_item field weeks item = slot <$> weeks.
Proof.
  unfold populate_item. case_match; [done|].
  destruct (list_find _ weeks) as [[i target]|] eqn:Hfind; [|done].
  apply list_find_Some in Hfind as (Hi & _ & _).
  rewrite list_fmap_insert, add_to_slot.
  apply list_insert_id. by rewrite list_lookup_fmap, Hi.
Qed.

Lemma populate_keys (items : list DataItem) field weeks :
  key <$> populate items field weeks = key <$> weeks.
Proof.
  unfold populate. revert weeks.
  induction items as [|item items IH]; intros weeks; simpl; [done|].
  by rewrite IH, populate_item_keys.
Qed.

Lemma populate_slots (items : list DataItem) field weeks :
  slot <$> populate items field weeks = slot <$> weeks.
Proof.
  unfold populate. revert weeks.
  induction items as [|item items IH]; intros weeks; simpl; [done|].
  by rewrite IH, populate_item_slots.
Qed.

(** One transaction: its amount goes to the bucket of its key, when it
    is counted, and every other bucket stays as it is. *)
Lemma populate_item_lookup field weeks (item : DataItem) (i : nat) w :
  NoDup (key <$> weeks) →
  weeks !! i = Some w →
  populate_item field weeks item !! i
  = Some (if decide (counted field item = true ∧ item_key item = key w)
          then add_to field w (amount item) else w).
Proof.
  intros Hnd Hi. unfold populate_item, counted.
  destruct (bool_decide (field = f_income) && excluded (category item));
    simpl; [done|].
  destruct (list_find _ weeks) as [[j target]|] eqn:Hfind.
  - apply list_find_Some in Hfind as (Hj & Hkey & _).
    destruct (decide (i = j)) as [->|Hij].
    + assert (target = w) as -> by congruence.
      rewrite decide_True by done.
      apply list_lookup_insert_eq. by eapply lookup_lt_Some.
    + rewrite list_lookup_insert_ne by done.
      rewrite decide_False; [done|]. intros [_ Hkey'].
      apply Hij. eapply (NoDup_lookup (key <$> weeks)); [done|..].
      * by rewrite list_lookup_fmap, Hi.
      * rewrite list_lookup_fmap, Hj. simpl. congruence.
  - rewrite decide_False; [done|]. intros [_ Hkey].
    rewrite list_find_None, Forall_forall in Hfind.
    apply (Hfind w); [|done]. apply list_elem_of_lookup. eauto.
Qed.

Lemma amounts_for_cons field (k : string) (item : DataItem (num:=num))
    (items : list DataItem) :
  amounts_for field k (item :: items)
  = if decide (counted field item = true ∧ item_key item = k)
    then amount item :: amounts_for field k items
    else amounts_for field k items.
Proof.
  unfold amounts_for. rewrite filter_cons. by case_decide.
Qed.

(** A series: a bucket receives, in order, the amounts of the counted
    transactions of its key. *)
Lemma populate_lookup (items : list DataItem) field weeks (i : nat) w :
  NoDup (key <$> weeks) →
  weeks !! i = Some w →
  populate items field weeks !! i
  = Some (foldl (add_to field) w (amounts_for field (key w) items)).
Proof.
  unfold populate. revert weeks w.
  induction items as [|item items IH]; intros weeks w Hnd Hi; simpl; [done|].
  rewrite amounts_for_cons.
  pose proof (populate_item_lookup field weeks item i w Hnd Hi) as Hstep.
  rewrite <- (populate_item_keys field weeks item) in Hnd.
  rewrite (IH _ _ Hnd Hstep).
  case_decide; [|done]. by rewrite add_to_key.
Qed.

Lemma foldl_add_to_key field w (l : list num) :
  key (foldl (add_to field) w l) = key w.
Proof.
  revert w. induction l as [|a l IH]; intros w; simpl; [done|].
  by rewrite IH, add_to_key.
Qed.

Lemma foldl_add_to_field field field' w (l : list num) :
  field_of field (foldl (add_to field') w l)
  = if decide (field = field') then sum_from (field_of field w) l
    else field_of field w.
Proof.
  unfold sum_from. revert w. induction l as [|a l IH]; intros w; simpl.
  - by case_decide.
  - rewrite IH. by destruct field, field'.
Qed.

Lemma ledger_weeks_slots incomes expenses emergencyFunds (s e : FirstOfMonth) :
  slot <$> ledger_weeks incomes expenses emergencyFunds s e
  = slot <$> (months_between s e ≫= month_weeks (num:=num)).
Proof. unfold ledger_weeks. by rewrite !populate_slots. Qed.

(** Every field of every bucket is the sum, from zero, of the amounts
    routed to it. *)
Lemma ledger_weeks_lookup incomes expenses emergencyFunds (s e : FirstOfMonth)
    (i : nat) w :
  fm_wf s →
  ledger_weeks incomes expenses emergencyFunds s e !! i = Some w →
  ∃ w0,
    (months_between s e ≫= month_weeks) !! i = Some w0
    ∧ key w = key w0 ∧ slot w = slot w0
    ∧ ∀ field,
        field_of field w
        = sum_from (nlit 0)
            (amounts_for field (key w)
               (items_for field incomes expenses emergencyFunds)).
Proof.
  intros Hs Hw.
  pose proof (months_keys_NoDup s
                (Z.to_nat (month_number e - month_number s + 1)) Hs) as Hnd.
  fold (months_between s e) in Hnd.
  set (W0 := months_between s e ≫= month_weeks) in *.
  assert (is_Some (W0 !! i)) as [w0 Hw0].
  { apply lookup_lt_is_Some. apply lookup_lt_Some in Hw.
    unfold ledger_weeks in Hw. by rewrite !populate_length in Hw. }
  exists w0.
  pose proof (populate_lookup incomes f_income W0 i w0 Hnd Hw0) as H1.
  rewrite <- (populate_keys incomes f_income) in Hnd.
  pose proof (populate_lookup expenses f_expense _ i _ Hnd H1) as H2.
  rewrite <- (populate_keys expenses f_expense) in Hnd.
  pose proof (populate_lookup emergencyFunds f_emergencyFund _ i _ Hnd H2) as H3.
  unfold ledger_weeks in Hw. fold W0 in Hw. rewrite H3 in Hw.
  injection Hw as <-. rewrite !foldl_add_to_key in *.
  split_and!; [done..| |].
  - pose proof (ledger_weeks_slots incomes expenses emergencyFunds s e) as Hsl.
    apply (f_equal (.!! i)) in Hsl.
    unfold ledger_weeks in Hsl. fold W0 in Hsl.
    rewrite !list_lookup_fmap, H3, Hw0 in Hsl. simpl in Hsl.
    congruence.
  - assert (∀ field, field_of field w0 = nlit 0) as Hzero.
    { assert (Forall (λ w, ∀ field, field_of field w = nlit 0) W0) as HW0.
      { apply Forall_bind, Forall_forall. intros c _. apply month_weeks_zero. }
      by eapply Forall_lookup_1 in HW0. }
    intros field. rewrite !foldl_add_to_field, !Hzero.
    by destruct field.
Qed.

(** ** The rolling balance *)

Lemma roll_base bal weeks : base <$> roll bal weeks = weeks.
Proof.
  revert bal. induction weeks as [|w weeks IH]; intros bal; simpl; [done|].
  by rewrite IH.
Qed.

Lemma roll_length bal weeks : length (roll bal weeks) = length weeks.
Proof. by rewrite <- (roll_base bal weeks) at 2; rewrite length_fmap. Qed.

Lemma roll_head bal weeks b :
  head (roll bal weeks) = Some b → opening b = bal.
Proof. destruct weeks; simpl; [done|]. by intros [= <-]. Qed.

Lemma roll_closing bal weeks b :
  b ∈ roll bal weeks →
  closing b = nsub (nadd (opening b) (income (base b))) (expense (base b)).
Proof.
  revert bal. induction weeks as [|w weeks IH]; intros bal; simpl.
  - by intros ?%elem_of_nil.
  - intros [->|Hin]%elem_of_cons; [done|]. by eapply IH.
Qed.

Lemma roll_step bal weeks (i : nat) prev cur :
  roll bal weeks !! i = Some prev →
  roll bal weeks !! S i = Some cur →
  opening cur = closing prev.
Proof.
  revert bal i. induction weeks as [|w weeks IH]; intros bal i; simpl; [done|].
  destruct i as [|i]; simpl.
  - intros [= <-] Hcur. simpl.
    apply (roll_head _ weeks). by rewrite head_lookup.
  - apply IH.
Qed.

(** The ledger is empty or the rolling balance of some bucket list. *)
Lemma weeklyFullData_roll incomes expenses emergencyFunds today :
  weeklyFullData incomes expenses emergencyFunds today = []
  ∨ ∃ weeks,
      weeklyFullData incomes expenses emergencyFunds today
      = roll INITIAL_BALANCE weeks.
Proof.
  unfold weeklyFullData.
  destruct (date <$> _) as [|d ds]; [by left|].
  simpl. case_bool_decide; [by left|]. right. eauto.
Qed.

(** C1.  Balance chain of the weekly sequence: the first week opens at
    the fixed starting balance, every later week opens at the closing of
    the week before it, and every week closes at
    opening + income - expense.  It holds for the whole sequence, for
    every input. *)
Theorem balance_chain (incomes expenses emergencyFunds : list DataItem)
    (today : Date) :
  let ws := weeklyFullData incomes expenses emergencyFunds today in
  (∀ first, head ws = Some first → opening first = INITIAL_BALANCE)
  ∧ (∀ (i : nat) prev cur,
       ws !! i = Some prev → ws !! S i = Some cur →
       opening cur = closing prev)
  ∧ (∀ b, b ∈ ws →
       closing b = nsub (nadd (opening b) (income (base b))) (expense (base b))).
Proof.
  intros ws. subst ws.
  destruct (weeklyFullData_roll incomes expenses emergencyFunds today)
    as [->|[weeks ->]].
  - split_and!; [done|done|]. by intros b ?%elem_of_nil.
  - split_and!.
    + apply roll_head.
    + apply roll_step.
    + apply roll_closing.
Qed.

(** ** The order of dates *)

Lemma date_leb_spec (a b : Date) :
  date_leb a b = true
  ↔ getFullYear a < getFullYear b
    ∨ getFullYear a = getFullYear b
      ∧ (getMonth a < getMonth b
         ∨ getMonth a = getMonth b ∧ getDate a ≤ getDate b).
Proof. unfold date_leb. lia. Qed.

Lemma date_leb_refl (a : Date) : date_leb a a = true.
Proof. apply date_leb_spec. lia. Qed.

Lemma date_leb_trans (a b c : Date) :
  date_leb a b = true → date_leb b c = true → date_leb a c = true.
Proof. rewrite !date_leb_spec. lia. Qed.

Lemma date_leb_total (a b : Date) : date_leb a b = false → date_leb b a = true.
Proof.
  intros Hab. apply date_leb_spec.
  apply not_true_iff_false in Hab. rewrite date_leb_spec in Hab. lia.
Qed.

Lemma Math_min_le (d : Date) (ds : list Date) : date_leb (Math_min d ds) d = true.
Proof.
  unfold Math_min. revert d. induction ds as [|x ds IH]; intros d; simpl.
  - apply date_leb_refl.
  - eapply date_leb_trans; [apply IH|]. unfold earlier.
    destruct (date_leb d x) eqn:Hdx; [apply date_leb_refl|].
    by apply date_leb_total.
Qed.

Lemma Math_max_ge (d : Date) (ds : list Date) : date_leb d (Math_max d ds) = true.
Proof.
  unfold Math_max. revert d. induction ds as [|x ds IH]; intros d; simpl.
  - apply date_leb_refl.
  - eapply date_leb_trans; [|apply IH]. unfold later.
    destruct (date_leb d x) eqn:Hdx; [done|apply date_leb_refl].
Qed.

Lemma date_month_range (d : Date) : 0 ≤ getMonth d ≤ 11.
Proof. pose proof (date_valid d) as H. unfold valid_date in H. lia. Qed.

Lemma new_Date_year (y m : Z) :
  0 ≤ m ≤ 11 →
  fm_year (new_Date y m) = (if (0 <=? y) && (y <=? 99) then 1900 + y else y)
  ∧ fm_month (new_Date y m) = m.
Proof.
  intros Hm. unfold new_Date. simpl.
  rewrite Z.div_small, Z.mod_small by lia. split; [lia|done].
Qed.


(** The ledger, once the input is known not to be empty. *)
Lemma weeklyFullData_eq (incomes expenses emergencyFunds : list DataItem)
    (today : Date) (d : Date) (ds : list Date) :
  date <$> (incomes ++ expenses ++ emergencyFunds) = d :: ds →
  weeklyFullData incomes expenses emergencyFunds today
  = if bool_decide (fm_year (range_end d ds today) - fm_year (range_start d ds) > 10)
    then []
    else roll INITIAL_BALANCE
           (populate emergencyFunds f_emergencyFund
              (populate expenses f_expense
                 (populate incomes f_income
                    (months_between (range_start d ds) (range_end d ds today)
                       ≫= month_weeks)))).
Proof.
  intros Hdates. unfold weeklyFullData. rewrite Hdates. simpl.
  by rewrite month_loop_spec.
Qed.


(** ** The ledger, bucket by bucket *)

Lemma ledger_shape (incomes expenses emergencyFunds : list DataItem)
    (today : Date) :
  weeklyFullData incomes expenses emergencyFunds today = []
  ∨ ∃ s e,
      fm_wf s
      ∧ weeklyFullData incomes expenses emergencyFunds today
        = roll INITIAL_BALANCE (ledger_weeks incomes expenses emergencyFunds s e).
Proof.
  destruct (date <$> (incomes ++ expenses ++ emergencyFunds))
    as [|d ds] eqn:Hdates.
  - left. unfold weeklyFullData. by rewrite Hdates.
  - rewrite (weeklyFullData_eq _ _ _ _ _ _ Hdates).
    case_bool_decide; [by left|]. right.
    exists (range_start d ds), (range_end d ds today).
    split; [apply new_Date_wf|done].
Qed.

(** Every field of every bucket of the ledger is the sum, from zero and
    in the order of the input, of the counted amounts of its key. *)
Lemma ledger_field (incomes expenses emergencyFunds : list DataItem)
    (today : Date) b field :
  b ∈ weeklyFullData incomes expenses emergencyFunds today →
  bucket_ok (base b)
  ∧ field_of field (base b)
    = sum_from (nlit 0)
        (amounts_for field (key (base b))
           (items_for field incomes expenses emergencyFunds)).
Proof.
  intros Hb.
  destruct (ledger_shape incomes expenses emergencyFunds today)
    as [Hnil|(s & e & Hs & Heq)].
  { rewrite Hnil in Hb. by apply elem_of_nil in Hb. }
  rewrite Heq in Hb. apply (list_elem_of_fmap_2 base) in Hb.
  rewrite roll_base in Hb. apply list_elem_of_lookup in Hb as [i Hi].
  destruct (ledger_weeks_lookup _ _ _ _ _ _ _ Hs Hi)
    as (w0 & Hw0 & Hkey & Hslot & Hfield).
  split; [|apply Hfield].
  pose proof (months_buckets_ok _
    (months_from_wf s (Z.to_nat (month_number e - month_number s + 1)) Hs))
    as Hok.
  eapply Forall_lookup_1 in Hok; [|exact Hw0].
  destruct Hok as (Hm & Hw & Hk). unfold slot in Hslot.
  injection Hslot as Hy Hmm Hww.
  unfold bucket_ok. rewrite Hkey, Hy, Hmm, Hww. done.
Qed.




(** ** Four buckets for every month of the range *)





(** ** The object [map] *)

Section obj.
Context {V : Type}.
Implicit Types (map : list (string * V)) (k : string) (v : V).

Lemma obj_get_Some map k v : obj_get map k = Some v → (k, v) ∈ map.
Proof.
  induction map as [|[k' v'] map IH]; simpl; [done|].
  destruct (decide (k' = k)) as [->|Hne].
  - intros [= ->]. apply list_elem_of_here.
  - intros Hget. apply list_elem_of_further. by apply IH.
Qed.

Lemma obj_set_elem_of map k v (e : string * V) :
  e ∈ obj_set map k v → e = (k, v) ∨ e ∈ map.
Proof.
  induction map as [|[k' v'] map IH]; simpl.
  - intros ->%list_elem_of_singleton. by left.
  - destruct (decide (k' = k)) as [->|Hne].
    + intros [->|Hin]%elem_of_cons; [by left|].
      right. by apply list_elem_of_further.
    + intros [->|Hin]%elem_of_cons.
      * right. apply list_elem_of_here.
      * destruct (IH Hin) as [->|Hin']; [by left|].
        right. by apply list_elem_of_further.
Qed.

Lemma obj_set_new map k v : obj_get map k = None → obj_set map k v = map ++ [(k, v)].
Proof.
  induction map as [|[k' v'] map IH]; simpl; [done|].
  destruct (decide (k' = k)); [done|]. intros Hget. by rewrite IH.
Qed.

Lemma obj_set_last map k v v' :
  obj_get map k = None → obj_set (map ++ [(k, v)]) k v' = map ++ [(k, v')].
Proof.
  induction map as [|[k0 v0] map IH]; simpl.
  - by rewrite decide_True.
  - destruct (decide (k0 = k)); [done|]. intros Hget. by rewrite IH.
Qed.

Lemma obj_get_last map k v : obj_get map k = None → obj_get (map ++ [(k, v)]) k = Some v.
Proof.
  induction map as [|[k0 v0] map IH]; simpl.
  - by rewrite decide_True.
  - destruct (decide (k0 = k)); [done|]. apply IH.
Qed.
End obj.

(** ** The groups of the aggregation *)

Lemma sub_of_semi (b : BalancedWeek (num:=num)) :
  sub_of semi_monthly b = first_half ∨ sub_of semi_monthly b = second_half.
Proof. unfold sub_of. simpl. case_match; eauto. Qed.

Lemma group_week_ok (viewType : ViewType) (map : list (string * Group))
    (b : BalancedWeek) :
  Forall (λ e, group_ok viewType e.2) map →
  Forall (λ e, group_ok viewType e.2) (group_week viewType map b).
Proof.
  intros Hmap. apply Forall_forall. intros e He.
  apply obj_set_elem_of in He as [->|He];
    [|by eapply Forall_forall in Hmap].
  simpl. split.
  - unfold add_week. simpl. intros [_ ?]%app_eq_nil. done.
  - intros ->. unfold add_week. simpl.
    destruct (obj_get map _) as [it|] eqn:Hget.
    + apply obj_get_Some in Hget.
      eapply Forall_forall in Hmap; [|done]. by apply Hmap.
    + apply sub_of_semi.
Qed.

Lemma groups_ok (viewType : ViewType) (ws : list BalancedWeek)
    (map : list (string * Group)) :
  Forall (λ e, group_ok viewType e.2) map →
  Forall (λ e, group_ok viewType e.2) (foldl (group_week viewType) map ws).
Proof.
  revert map. induction ws as [|b ws IH]; intros map Hmap; simpl; [done|].
  by apply IH, group_week_ok.
Qed.

Lemma finish_Some (viewType : ViewType) (ws : list BalancedWeek) (it : Group) :
  g_weeks it ≠ [] → is_Some (finish viewType ws it).
Proof.
  intros Hne. unfold finish.
  destruct (last (g_weeks it)) eqn:Hlast; [by eexists|].
  by apply last_None in Hlast.
Qed.

(** The periods of the half-month and month views: one for every value
    of [map], in order. *)
Lemma aggregatedData_groups (viewType : ViewType) (ws : list BalancedWeek) :
  viewType ≠ weekly →
  ∃ periods,
    aggregatedData ws viewType = Some (PAggregated <$> periods)
    ∧ Forall2 (λ it a, finish viewType ws it = Some a)
        (Object_values (foldl (group_week viewType) [] ws)) periods.
Proof.
  intros Hv.
  assert (is_Some (mapM (finish viewType ws)
            (Object_values (foldl (group_week viewType) [] ws))))
    as [periods Hperiods].
  { apply mapM_is_Some. unfold Object_values.
    apply Forall_fmap.
    eapply Forall_impl; [apply (groups_ok viewType ws []); constructor|].
    intros e [Hne _]. by apply finish_Some. }
  exists periods. split.
  - unfold aggregatedData. rewrite Hperiods. by destruct viewType.
  - by apply mapM_Some.
Qed.


(** ** The weekly view *)

(** C5, as the code has it.  In the weekly view the aggregator returns
    the weekly sequence itself: the same elements in the same order,
    every field (the emergency fund among them) as it was, and no [net]
    field on any element. *)
Theorem weekly_view_is_identity (ws : list (BalancedWeek (num:=num))) :
  ∃ ps,
    aggregatedData ws weekly = Some ps
    ∧ length ps = length ws
    ∧ (∀ (i : nat) b, ws !! i = Some b → ps !! i = Some (PWeek b))
    ∧ (∀ p, p ∈ ps →
         period_net p = None
         ∧ ∃ b, b ∈ ws
             ∧ period_name p = name b
             ∧ period_emergencyFund p = emergencyFund (base b)
             ∧ period_income p = income (base b)
             ∧ period_expense p = expense (base b)
             ∧ period_opening p = opening b
             ∧ period_closing p = closing b).
Proof.
  exists (PWeek <$> ws). split_and!.
  - done.
  - by rewrite length_fmap.
  - intros i b Hb. by rewrite list_lookup_fmap, Hb.
  - intros p (b & -> & Hb)%list_elem_of_fmap_1. split; [done|].
    exists b. by split_and!.
Qed.

(** ** The month view of the ledger *)

Lemma obj_get_app_ne {V : Type} (map : list (string * V)) (k k' : string) (v : V) :
  k ≠ k' → obj_get (map ++ [(k, v)]) k' = obj_get map k'.
Proof.
  intros Hne. induction map as [|[k0 v0] map IH]; simpl.
  - by rewrite decide_False.
  - by rewrite IH.
Qed.

Lemma group_key_monthly (b : BalancedWeek (num:=num)) (y m k : Z) :
  slot (base b) = (y, m, k) →
  group_key monthly b = pretty y +:+ "-" +:+ pretty m.
Proof. unfold slot, group_key. by intros [= -> -> _]. Qed.

Lemma group_week_first (map : list (string * Group)) (b : BalancedWeek) :
  obj_get map (group_key monthly b) = None →
  group_week monthly map b
  = map ++ [(group_key monthly b, add_week (new_group monthly b) b)].
Proof.
  intros Hget. unfold group_week. rewrite Hget. by apply obj_set_new.
Qed.

Lemma group_week_next (map : list (string * Group)) (k : string) (it : Group)
    (b : BalancedWeek) :
  obj_get map k = None →
  group_key monthly b = k →
  group_week monthly (map ++ [(k, it)]) b = map ++ [(k, add_week it b)].
Proof.
  intros Hget Hk. unfold group_week.
  rewrite Hk, (obj_get_last _ _ _ Hget). by apply obj_set_last.
Qed.

(** On such a ledger the loop of the aggregation leaves one entry for
    every month, in order. *)
Lemma group_blocks (ws : list BalancedWeek) (map : list (string * Group)) :
  month_blocks ws →
  Forall (λ b, obj_get map (group_key monthly b) = None) ws →
  foldl (group_week monthly) map ws = map ++ month_groups ws.
Proof.
  intros Hblocks. revert map.
  induction Hblocks as [|y m w1 w2 w3 w4 rest Hm H1 H2 H3 H4 Hrest _ IH];
    intros map Hnew; simpl.
  { by rewrite app_nil_r. }
  apply Forall_cons in Hnew as [Hk1 Hnew].
  do 3 apply Forall_cons in Hnew as [_ Hnew].
  pose proof (group_key_monthly _ _ _ _ H1) as K1.
  rewrite (group_week_first map w1) by done.
  rewrite (group_week_next _ _ _ w2 Hk1)
    by (by rewrite K1; eapply group_key_monthly).
  rewrite (group_week_next _ _ _ w3 Hk1)
    by (by rewrite K1; eapply group_key_monthly).
  rewrite (group_week_next _ _ _ w4 Hk1)
    by (by rewrite K1; eapply group_key_monthly).
  rewrite IH.
  - by rewrite <- app_assoc.
  - rewrite Forall_forall in Hrest, Hnew. apply Forall_forall.
    intros w Hw. destruct (Hrest w Hw) as [Hwm Hne].
    rewrite obj_get_app_ne; [by apply Hnew|].
    rewrite K1.
    rewrite (group_key_monthly w (year (base w)) (month (base w))
               (week (base w)) eq_refl).
    intros (-> & ->)%month_key_inj; done.
Qed.

Lemma month_groups_elem (ws : list BalancedWeek) (e : string * Group) :
  month_blocks ws →
  e ∈ month_groups ws →
  ∃ (y m : Z) b1 b2 b3 b4,
    e.2 = month_group b1 b2 b3 b4
    ∧ slot (base b1) = (y, m, 1) ∧ slot (base b2) = (y, m, 2)
    ∧ slot (base b3) = (y, m, 3) ∧ slot (base b4) = (y, m, 4)
    ∧ b4 ∈ ws.
Proof.
  induction 1 as [|y m w1 w2 w3 w4 rest Hm H1 H2 H3 H4 Hrest _ IH]; simpl.
  { by intros ?%elem_of_nil. }
  intros [->|He]%elem_of_cons.
  - exists y, m, w1, w2, w3, w4. split_and!; [done..|].
    do 3 apply list_elem_of_further. apply list_elem_of_here.
  - destruct (IH He) as (y' & m' & v1 & v2 & v3 & v4 & ? & ? & ? & ? & ? & Hin).
    exists y', m', v1, v2, v3, v4. split_and!; [done..|].
    by do 4 apply list_elem_of_further.
Qed.

(** A ledger with the slots of consecutive months is made of such
    months. *)
Lemma blocks_of_slots (ws : list (BalancedWeek (num:=num)))
    (c : FirstOfMonth) (n : nat) :
  fm_wf c →
  slot ∘ base <$> ws = slot <$> (months_from c n ≫= month_weeks (num:=num)) →
  month_blocks ws.
Proof.
  revert c ws. induction n as [|n IH]; intros c ws Hc Hslots.
  { apply fmap_nil_inv in Hslots as ->. constructor. }
  cbn [months_from] in Hslots. rewrite bind_cons, fmap_app in Hslots.
  rewrite month_weeks_slots in Hslots. simpl in Hslots.
  destruct ws as [|w1 [|w2 [|w3 [|w4 rest]]]]; try done.
  injection Hslots as Y1 M1 K1 Y2 M2 K2 Y3 M3 K3 Y4 M4 K4 Hrest.
  unfold fm_wf in Hc.
  apply (blocks_cons (fm_year c) (fm_month c + 1));
    [lia|unfold slot; congruence..| |].
  - apply Forall_forall. intros w Hw.
    assert ((slot ∘ base) w
            ∈ slot <$> (months_from (setMonth_next c) n
                          ≫= month_weeks (num:=num))) as Hw'.
    { rewrite <- Hrest. by apply (list_elem_of_fmap_2 (slot ∘ base)). }
    apply list_elem_of_fmap_1 in Hw' as (w0 & Hw0 & Hin).
    apply list_elem_of_bind in Hin as (c' & Hin & Hc').
    pose proof (months_from_wf _ n (setMonth_next_wf c)) as Hwf.
    rewrite Forall_forall in Hwf. specialize (Hwf c' Hc').
    apply months_from_number in Hc'. rewrite setMonth_next_number in Hc'.
    apply (list_elem_of_fmap_2 slot) in Hin. rewrite month_weeks_slots in Hin.
    apply list_elem_of_fmap_1 in Hin as (k & Hk & _).
    rewrite Hk in Hw0. simpl in Hw0. unfold slot in Hw0.
    injection Hw0 as -> -> _.
    unfold fm_wf, month_number in *. split; [lia|].
    intros [= ? ?]. lia.
  - apply (IH (setMonth_next c)); [apply setMonth_next_wf|done].
Qed.

Lemma find_week_unique (ws : list (BalancedWeek (num:=num)))
    (b : BalancedWeek) (y m k : Z) :
  NoDup (slot ∘ base <$> ws) →
  b ∈ ws →
  slot (base b) = (y, m, k) →
  find_week ws y m k = Some b.
Proof.
  intros Hnd Hb Hslot. unfold find_week.
  induction ws as [|a ws IH]; [by apply elem_of_nil in Hb|].
  simpl.
  destruct ((year (base a) =? y) && (month (base a) =? m)
            && (week (base a) =? k)) eqn:Hmatch.
  - f_equal. apply (inj_on_NoDup (slot ∘ base) (a :: ws)); [done| |done|].
    + apply list_elem_of_here.
    + simpl. rewrite Hslot. unfold slot. f_equal; [f_equal|]; lia.
  - apply elem_of_cons in Hb as [Hab|Hb].
    + subst a. unfold slot in Hslot. injection Hslot as Hy Hm Hk. lia.
    + apply IH; [|done]. by apply NoDup_cons in Hnd as [_ ?].
Qed.

Lemma ledger_slots_NoDup incomes expenses emergencyFunds (s e : FirstOfMonth) :
  NoDup (slot ∘ base
           <$> roll INITIAL_BALANCE
                 (ledger_weeks incomes expenses emergencyFunds s e)).
Proof.
  rewrite list_fmap_compose, roll_base, ledger_weeks_slots.
  pose proof (months_slots_NoDup s
                (Z.to_nat (month_number e - month_number s + 1))) as Hnd.
  rewrite list_fmap_compose in Hnd. by apply NoDup_fmap_1 in Hnd.
Qed.

(** C7.  In the month view of the ledger every period has four
    constituent weeks, the weeks 1 to 4 of its month in this order; its
    income and its expense are the sums of theirs, its opening is the
    opening of the first of them, its closing is the closing of the last,
    which is week 4 of that month in the ledger, and its net is income
    less expense. *)
Theorem monthly_aggregation (incomes expenses emergencyFunds : list DataItem)
    (today : Date) :
  let ws := weeklyFullData incomes expenses emergencyFunds today in
  ∃ ps,
    aggregatedData ws monthly = Some ps
    ∧ ∀ p, p ∈ ps →
        ∃ a b1 b2 b3 b4,
          p = PAggregated a
          ∧ a_weeks a = [b1; b2; b3; b4]
          ∧ slot (base b1) = (a_year a, a_month a, 1)
          ∧ slot (base b2) = (a_year a, a_month a, 2)
          ∧ slot (base b3) = (a_year a, a_month a, 3)
          ∧ slot (base b4) = (a_year a, a_month a, 4)
          ∧ a_income a = sum_from (nlit 0) (income ∘ base <$> a_weeks a)
          ∧ a_expense a = sum_from (nlit 0) (expense ∘ base <$> a_weeks a)
          ∧ a_opening a = opening b1
          ∧ a_closing a = closing b4
          ∧ find_week ws (a_year a) (a_month a) 4 = Some b4
          ∧ a_net a = nsub (a_income a) (a_expense a).
Proof.
  intros ws.
  destruct (aggregatedData_groups monthly ws) as (periods & Hagg & Hfin);
    [done|].
  exists (PAggregated <$> periods). split; [done|].
  intros p (a & -> & Ha)%list_elem_of_fmap_1.
  destruct (ledger_shape incomes expenses emergencyFunds today)
    as [Hnil|(s & e & Hs & Heq)].
  { subst ws. rewrite Hnil in Hfin. simpl in Hfin.
    apply Forall2_nil_inv_l in Hfin as ->. by apply elem_of_nil in Ha. }
  assert (month_blocks ws) as Hblocks.
  { apply (blocks_of_slots ws s
             (Z.to_nat (month_number e - month_number s + 1)) Hs).
    subst ws. rewrite Heq, list_fmap_compose, roll_base.
    apply ledger_weeks_slots. }
  assert (NoDup (slot ∘ base <$> ws)) as Hnd.
  { subst ws. rewrite Heq. apply ledger_slots_NoDup. }
  rewrite (group_blocks ws [] Hblocks) in Hfin.
  2:{ apply Forall_forall. by intros. }
  simpl in Hfin.
  apply list_elem_of_lookup in Ha as [i Ha].
  destruct (Forall2_lookup_r _ _ _ _ _ Hfin Ha) as (it & Hit & Hfinish).
  unfold Object_values in Hit.
  apply list_lookup_fmap_Some in Hit as (entry & -> & Hentry).
  apply list_elem_of_lookup_2 in Hentry.
  destruct (month_groups_elem ws entry Hblocks Hentry)
    as (y & m & b1 & b2 & b3 & b4 & Hgroup & H1 & H2 & H3 & H4 & Hin).
  rewrite Hgroup in Hfinish. unfold finish in Hfinish. simpl in Hfinish.
  injection Hfinish as <-. simpl.
  assert (year (base b1) = y ∧ month (base b1) = m) as [-> ->].
  { unfold slot in H1. by injection H1. }
  eexists _, b1, b2, b3, b4. split; [reflexivity|]. simpl.
  split_and!; try done.
  by apply find_week_unique.
Qed.

(** ** The cards on display *)

Lemma slice_last4 {A : Type} (l : list A) :
  slice l (-4) None = drop (length l - 4) l.
Proof.
  unfold slice. simpl.
  replace (Z.to_nat (Z.max (Z.of_nat (length l) + -4) 0))
    with (length l - 4)%nat by lia.
  apply take_ge. rewrite length_drop. lia.
Qed.

Lemma slice_from {A : Type} (l : list A) (i : nat) :
  (i < length l)%nat →
  slice l (Z.of_nat i) (Some (Z.of_nat i + 4)) = take 4 (drop i l).
Proof.
  intros Hi. unfold slice.
  destruct (Z.ltb_spec (Z.of_nat i) 0); [lia|].
  destruct (Z.ltb_spec (Z.of_nat i + 4) 0); [lia|].
  rewrite (Z.min_l (Z.of_nat i)) by lia. rewrite Nat2Z.id.
  destruct (decide (i + 4 ≤ length l)%nat).
  - f_equal. lia.
  - rewrite !take_ge; [done|rewrite length_drop; lia..].
Qed.

Lemma slice_length4 {A : Type} (l : list A) (i : Z) :
  (length (slice l i (Some (i + 4)%Z)) ≤ 4)%nat.
Proof.
  unfold slice. rewrite length_take.
  repeat match goal with |- context [Z.ltb ?a ?b] =>
    destruct (Z.ltb_spec a b) end; lia.
Qed.

Section findIndex.
Context {A : Type} (P : A → Prop) `{!∀ x, Decision (P x)}.

Lemma findIndex_found (l : list A) (i : nat) (x : A) :
  list_find P l = Some (i, x) → findIndex P l = Z.of_nat i.
Proof. unfold findIndex. by intros ->. Qed.

Lemma findIndex_none (l : list A) :
  findIndex P l = -1 ↔ list_find P l = None.
Proof.
  unfold findIndex. destruct (list_find P l) as [[i x]|]; [|done].
  split; [lia|done].
Qed.

Lemma findIndex_absent (l : list A) :
  findIndex P l = -1 ↔ ∀ x, x ∈ l → ¬ P x.
Proof. by rewrite findIndex_none, list_find_None, Forall_forall. Qed.

End findIndex.

(** C8.  The display window has at most four elements.  When a period
    named as the anchor is in the sequence, the window is the slice of
    (at most) four periods that starts at the index the lookup finds,
    the first period with that name, and so its first element bears the
    anchor's name; when no period matches, the window is the last four
    periods (all of them when there are fewer). *)
Theorem display_window ps (anchor : string) :
  (∀ loaded, (length (displayBlocks loaded ps anchor) ≤ 4)%nat)
  ∧ (∀ p, p ∈ ps → period_name p = anchor →
       ∃ (i : nat) first,
         ps !! i = Some first
         ∧ period_name first = anchor
         ∧ (∀ (j : nat) q, ps !! j = Some q → (j < i)%nat → period_name q ≠ anchor)
         ∧ displayBlocks true ps anchor = take 4 (drop i ps)
         ∧ head (displayBlocks true ps anchor) = Some first)
  ∧ ((∀ p, p ∈ ps → period_name p ≠ anchor) →
       displayBlocks true ps anchor = drop (length ps - 4) ps).
Proof.
  split_and!.
  - intros [|]; unfold displayBlocks; simpl; [|lia].
    case_match.
    + rewrite slice_last4, length_drop. lia.
    + apply slice_length4.
  - intros p Hin Hname.
    destruct (list_find_elem_of (λ d, period_name d = anchor) ps p Hin Hname)
      as [[i first] Hfind].
    pose proof Hfind as (Hi & Hfirst & Hbefore)%list_find_Some.
    exists i, first. split_and!; [done..| |].
    + unfold displayBlocks. simpl.
      rewrite (findIndex_found _ _ _ _ Hfind).
      destruct (Z.eqb_spec (Z.of_nat i) (-1)); [lia|].
      apply slice_from. by eapply lookup_lt_Some.
    + unfold displayBlocks. simpl.
      rewrite (findIndex_found _ _ _ _ Hfind).
      destruct (Z.eqb_spec (Z.of_nat i) (-1)); [lia|].
      rewrite slice_from by (by eapply lookup_lt_Some).
      rewrite head_lookup, lookup_take_lt, lookup_drop by lia.
      by rewrite Nat.add_0_r.
  - intros Habsent. unfold displayBlocks. simpl.
    rewrite (proj2 (findIndex_absent (λ d, period_name d = anchor) ps) Habsent).
    simpl. apply slice_last4.
Qed.

(** ** The default period *)

Lemma exists_name ps (nm : string) :
  existsb (λ d, bool_decide (period_name d = nm)) ps = true
  ↔ ∃ p, p ∈ ps ∧ period_name p = nm.
Proof.
  rewrite existsb_exists. split.
  - intros (p & Hin%list_elem_of_In & Hp%bool_decide_eq_true). eauto.
  - intros (p & Hin%list_elem_of_In & Hp). exists p.
    by rewrite bool_decide_eq_true.
Qed.

(** The label of the day's period is the label the pipeline gives to the
    week, half month or month the day lies in. *)
Lemma today_label_weekly (today : Date) w :
  year w = getFullYear today →
  month w = getMonth today + 1 →
  week w = getWeekIndex (getDate today) →
  week_name w = getPeriodNameFromDate today weekly.
Proof. unfold week_name. by intros -> -> ->. Qed.

Lemma today_label_group (today : Date) (viewType : ViewType)
    (b : BalancedWeek (num:=num)) :
  viewType ≠ weekly →
  year (base b) = getFullYear today →
  month (base b) = getMonth today + 1 →
  (week (base b) <=? 2) = (getWeekIndex (getDate today) <=? 2) →
  group_name viewType b = getPeriodNameFromDate today viewType.
Proof.
  unfold group_name, sub_of. intros Hv -> -> ->.
  by destruct viewType.
Qed.

Lemma name_at_lookup ps (i : nat) p :
  ps !! i = Some p → name_at ps (Z.of_nat i) = Some (period_name p).
Proof.
  intros Hp. unfold name_at.
  destruct (Z.ltb_spec (Z.of_nat i) 0); [lia|].
  by rewrite Nat2Z.id, Hp.
Qed.

Lemma name_at_in_bounds ps (i : Z) :
  0 ≤ i < Z.of_nat (length ps) → is_Some (name_at ps i).
Proof.
  intros Hi.
  destruct (lookup_lt_is_Some_2 ps (Z.to_nat i)) as [p Hp]; [lia|].
  exists (period_name p). rewrite <- (Z2Nat.id i) by lia.
  by apply name_at_lookup.
Qed.

(** C9.  On a non-empty sequence of periods the default anchor is the
    label of the period today falls into under the granularity in force
    (the label built from the week-of-month and half-month rules, which
    is the label the pipeline gives that period) whenever a period with
    that exact name is in the sequence, and the name of the last period
    otherwise. *)
Theorem default_anchor ps (viewType : ViewType) (today : Date)
    (selected : string) :
  ps ≠ [] →
  let todayName := getPeriodNameFromDate today viewType in
  ((∃ p, p ∈ ps ∧ period_name p = todayName) →
     defaultAnchor ps viewType today selected = Some todayName)
  ∧ ((∀ p, p ∈ ps → period_name p ≠ todayName) →
       ∃ last_period,
         last ps = Some last_period
         ∧ defaultAnchor ps viewType today selected
           = Some (period_name last_period))
  ∧ (∀ b : BalancedWeek (num:=num),
       year (base b) = getFullYear today →
       month (base b) = getMonth today + 1 →
       week (base b) = getWeekIndex (getDate today) →
       todayName
       = if decide (viewType = weekly) then week_name (base b)
         else group_name viewType b).
Proof.
  intros Hne todayName. unfold defaultAnchor.
  destruct (last ps) as [last_period|] eqn:Hlast;
    [|by apply last_None in Hlast].
  assert (0 < length ps)%nat as Hlen by (destruct ps; simpl; [done|lia]).
  rewrite bool_decide_eq_true_2 by lia.
  fold todayName. split_and!.
  - intros Hex%exists_name. by rewrite Hex.
  - intros Habsent. exists last_period. split; [done|].
    destruct (existsb _ ps) eqn:Hex.
    { apply exists_name in Hex as (p & Hin & Hp). by destruct (Habsent p). }
    rewrite last_lookup in Hlast.
    replace (Z.of_nat (length ps) - 1) with (Z.of_nat (pred (length ps)))
      by lia.
    by apply name_at_lookup.
  - intros b Hy Hm Hw. subst todayName. case_decide as Hv.
    + subst viewType. symmetry. by apply today_label_weekly.
    + symmetry. apply today_label_group; [done..|by rewrite Hw].
Qed.

(** ** Step navigation *)

Lemma findIndex_range {A : Type} (P : A → Prop) `{!∀ x, Decision (P x)}
    (l : list A) :
  -1 ≤ findIndex P l < Z.of_nat (length l).
Proof.
  unfold findIndex. destruct (list_find P l) as [[i x]|] eqn:Hfind; [|lia].
  apply list_find_Some in Hfind as (Hi%lookup_lt_Some & _). lia.
Qed.

(** The handler reads [.name] within bounds only: it never throws. *)
Lemma handleMouseMove_total (isDataLoaded : bool) ps (st : DragState)
    (clientX : Z) :
  is_Some (handleMouseMove isDataLoaded ps st clientX).
Proof.
  unfold handleMouseMove.
  destruct (dragStartX st) as [startX|]; [|done].
  destruct (negb (isDragging st) || negb isDataLoaded); [done|].
  simpl. destruct (Z.abs (clientX - startX) >? threshold); [|done].
  pose proof (findIndex_range (λ d, period_name d = selectedFilter st) ps)
    as Hidx.
  set (idx := findIndex _ ps) in *.
  destruct (clientX - startX >? 0).
  - destruct (Z.gtb_spec idx 0); [|done].
    destruct (name_at_in_bounds ps (idx - 1)) as [nm ->]; [lia|done].
  - destruct (Z.ltb_spec idx (Z.of_nat (length ps) - 1)); [|done].
    destruct (name_at_in_bounds ps (idx + 1)) as [nm ->]; [lia|done].
Qed.


End Properties.

(** * The emergency fund is a snapshot *)


(** * The statements at work on the sample ledgers *)

(** The scenario of the specification, from the starting balance of the
    component. *)
Example sample_ledger_balances :
  (λ b, (name b, opening b, closing b)) <$> sample_ledger
  = [("2024年3月 第1周", 1016000, 1021000);
     ("2024年3月 第2周", 1021000, 1019000);
     ("2024年3月 第3周", 1019000, 1019000);
     ("2024年3月 第4周", 1019000, 1019000)].
Proof. by vm_compute. Qed.

Lemma balance_chain_witness :
  length sample_ledger = 4%nat
  ∧ ∀ (i : nat) prev cur,
      sample_ledger !! i = Some prev → sample_ledger !! S i = Some cur →
      opening cur = closing prev.
Proof.
  split; [reflexivity|].
  apply (balance_chain sample_incomes sample_expenses [] sample_today).
Defined.





Lemma monthly_aggregation_witness :
  ∃ ps,
    aggregatedData sample_ledger monthly = Some ps
    ∧ length ps = 1%nat
    ∧ ∀ p, p ∈ ps →
        ∃ a, p = PAggregated a ∧ a_net a = a_income a - a_expense a.
Proof.
  destruct (monthly_aggregation sample_incomes sample_expenses [] sample_today)
    as (ps & Hps & Hall).
  exists ps. split; [exact Hps|]. split.
  - change (aggregatedData sample_ledger monthly = Some ps) in Hps.
    vm_compute in Hps. injection Hps as <-. reflexivity.
  - intros p Hp.
    destruct (Hall p Hp) as (a & b1 & b2 & b3 & b4 & -> & _ & _ & _ & _ & _
                             & _ & _ & _ & _ & _ & Hnet).
    exists a. split; [reflexivity|exact Hnet].
Defined.

Lemma weekly_view_witness :
  ∃ ps,
    aggregatedData sample_ledger weekly = Some ps ∧ length ps = 4%nat.
Proof.
  destruct (weekly_view_is_identity sample_ledger) as (ps & Hps & Hlen & _).
  exists ps. split; [exact Hps|]. rewrite Hlen. reflexivity.
Defined.

(** C5 as the specification words it fails: the elements of the weekly
    view carry no [net] field. *)
Lemma weekly_net_counterexample :
  ∃ ps,
    aggregatedData sample_ledger weekly = Some ps
    ∧ ¬ (∀ p, p ∈ ps →
           period_net p = Some (nsub (period_income p) (period_expense p))).
Proof.
  eexists. split; [reflexivity|]. intros Hnet.
  assert (∃ b rest, sample_ledger = b :: rest) as (b & rest & Hledger).
  { vm_compute. by eexists _, _. }
  rewrite Hledger in Hnet.
  specialize (Hnet (PWeek b) (list_elem_of_here _ _)). discriminate.
Qed.

Lemma display_window_witness :
  period_name <$> displayBlocks true (PWeek <$> sample_ledger) "2024年3月 第2周"
  = ["2024年3月 第2周"; "2024年3月 第3周"; "2024年3月 第4周"]
  ∧ (length (displayBlocks true (PWeek <$> sample_ledger) "2024年3月 第2周")
     ≤ 4)%nat.
Proof.
  split; [by vm_compute|].
  apply (display_window (PWeek <$> sample_ledger) "2024年3月 第2周").
Defined.

Lemma default_anchor_witness :
  PWeek <$> sample_ledger ≠ []
  ∧ defaultAnchor (PWeek <$> sample_ledger) weekly sample_today ""
    = Some "2024年3月 第3周".
Proof.
  assert (PWeek <$> sample_ledger ≠ []) as Hne by (vm_compute; discriminate).
  split; [exact Hne|].
  destruct (default_anchor (PWeek <$> sample_ledger) weekly sample_today ""
              Hne) as [Hfound _].
  rewrite Hfound; [reflexivity|].
  assert (∃ b, sample_ledger !! 2%nat = Some b ∧ name b = "2024年3月 第3周")
    as (b & Hb & Hname).
  { vm_compute. by eexists. }
  exists (PWeek b). split; [|exact Hname].
  apply list_elem_of_fmap_2. by eapply list_elem_of_lookup_2.
Defined.



(** * Further properties of the component *)

Section MoreProperties.
Context {num : Type} `{!Number num}.
Implicit Types (b : BalancedWeek (num:=num)) (ps : list (Period (num:=num))).

(** ** The week of the month *)

(** X1.  The week of a day of the month is always one of 1, 2, 3, 4; it
    does not decrease when the day grows; from day 1 on it is the number
    of the seven-day stretch the day lies in, capped at 4; and it is in
    the first half of the month (weeks 1 and 2) exactly for the days up
    to the 14th, which is the test both the half-month label of a date
    and the half-month group of a bucket use. *)
Theorem week_of_month_rule (d d' : Z) :
  1 ≤ getWeekIndex d ≤ 4
  ∧ (d ≤ d' → getWeekIndex d ≤ getWeekIndex d')
  ∧ (1 ≤ d → getWeekIndex d = Z.min 4 ((d - 1) `div` 7 + 1))
  ∧ ((getWeekIndex d <=? 2) = (d <=? 14)).
Proof.
  unfold getWeekIndex.
  pose proof (Z.div_mod (d - 1) 7). pose proof (Z.mod_pos_bound (d - 1) 7).
  split_and!; intros; repeat case_match; lia.
Qed.

(** ** The range covers the input *)






(** The dates of the buckets of the ledger, within the safety bound. *)
Lemma ledger_slots (incomes expenses emergencyFunds : list DataItem)
    (today : Date) (d : Date) (ds : list Date) :
  date <$> (incomes ++ expenses ++ emergencyFunds) = d :: ds →
  fm_year (range_end d ds today) - fm_year (range_start d ds) ≤ 10 →
  slot ∘ base <$> weeklyFullData incomes expenses emergencyFunds today
  = slot <$> (months_between (range_start d ds) (range_end d ds today)
                ≫= month_weeks (num:=num)).
Proof.
  intros Hdates Hbound. rewrite (weeklyFullData_eq _ _ _ _ _ _ Hdates).
  rewrite bool_decide_eq_false_2 by lia.
  rewrite list_fmap_compose, roll_base.
  apply (ledger_weeks_slots incomes expenses emergencyFunds).
Qed.



(** ** The ledger on the time line *)

(** X3.  Whatever the input, the ledger has four weeks for each of at
    most 132 months, that is at most 528 weeks: the safety bound caps
    what the month loop allocates. *)
Theorem ledger_size_bound (incomes expenses emergencyFunds : list DataItem)
    (today : Date) :
  ∃ months : nat,
    length (weeklyFullData incomes expenses emergencyFunds today)
    = (4 * months)%nat
    ∧ (months ≤ 132)%nat.
Proof.
  destruct (date <$> (incomes ++ expenses ++ emergencyFunds))
    as [|d ds] eqn:Hdates.
  { exists 0%nat. unfold weeklyFullData. rewrite Hdates. simpl. lia. }
  rewrite (weeklyFullData_eq _ _ _ _ _ _ Hdates).
  case_bool_decide as Hguard; [exists 0%nat; simpl; lia|].
  exists (Z.to_nat (month_number (range_end d ds today)
                    - month_number (range_start d ds) + 1)).
  split.
  - rewrite roll_length, !populate_length, month_weeks_bind_length.
    unfold months_between. by rewrite months_from_length.
  - pose proof (new_Date_wf (getFullYear (Math_min d ds))
                  (getMonth (Math_min d ds))) as Hs.
    pose proof (new_Date_wf (getFullYear (Math_max d (ds ++ [today])))
                  (getMonth (Math_max d (ds ++ [today])))) as He.
    unfold fm_wf, month_number, range_start, range_end in *. lia.
Qed.

(** X4.  Within the safety bound the ledger is in chronological order
    and has no gap: its i-th week (from 0) is week [i mod 4 + 1] of the
    month that comes [i div 4] months after the first month of the
    range. *)
Theorem ledger_is_gap_free (incomes expenses emergencyFunds : list DataItem)
    (today : Date) (d : Date) (ds : list Date) (i : nat) b :
  date <$> (incomes ++ expenses ++ emergencyFunds) = d :: ds →
  fm_year (range_end d ds today) - fm_year (range_start d ds) ≤ 10 →
  weeklyFullData incomes expenses emergencyFunds today !! i = Some b →
  let month_nr := month_number (range_start d ds) + Z.of_nat i `div` 4 in
  year (base b) = month_nr `div` 12
  ∧ month (base b) = month_nr `mod` 12 + 1
  ∧ week (base b) = Z.of_nat i `mod` 4 + 1.
Proof.
  intros Hdates Hbound Hi month_nr.
  assert (bucket_ok (base b)) as (Hm & Hw & _).
  { eapply (ledger_field _ _ _ _ _ f_income).
    by eapply list_elem_of_lookup_2. }
  assert (slot_number (slot (base b))
          = 4 * month_number (range_start d ds) + Z.of_nat i) as Hnr.
  { pose proof (ledger_slots _ _ _ _ _ _ Hdates Hbound) as Hslots.
    apply (f_equal (fmap slot_number)) in Hslots.
    rewrite <- !list_fmap_compose in Hslots.
    unfold months_between in Hslots.
    rewrite (months_slot_numbers (range_start d ds)) in Hslots.
    apply (f_equal (.!! i)) in Hslots.
    rewrite list_lookup_fmap, Hi in Hslots. simpl in Hslots.
    symmetry in Hslots. apply lookup_seqZ in Hslots as [-> _]. done. }
  unfold slot_number, slot in Hnr. simpl in Hnr.
  pose proof (Z.div_mod (Z.of_nat i) 4).
  pose proof (Z.mod_pos_bound (Z.of_nat i) 4).
  pose proof (Z.div_mod month_nr 12).
  pose proof (Z.mod_pos_bound month_nr 12).
  subst month_nr. lia.
Qed.

(** ** Names determine their period *)

Lemma pretty_N_go_chars (x : N) (s : string) :
  Forall (λ c, c ∈ number_chars) (chars s) →
  Forall (λ c, c ∈ number_chars) (chars (pretty_N_go x s)).
Proof.
  revert s. induction (N.lt_wf_0 x) as [x _ IH]; intros s Hs.
  assert (x = 0 ∨ 0 < x)%N as [->|Hx] by lia.
  - by rewrite pretty_N_go_0.
  - rewrite pretty_N_go_step by done. apply IH; [by apply N.div_lt|].
    change (chars (String ?c s)) with (c :: chars s). constructor; [|done].
    unfold pretty_N_char.
    repeat case_match;
      repeat (apply list_elem_of_here || apply list_elem_of_further).
Qed.

Lemma pretty_N_chars (x : N) :
  Forall (λ c, c ∈ number_chars) (chars (pretty x)).
Proof.
  unfold pretty, pretty_N. case_decide.
  - repeat constructor.
  - apply pretty_N_go_chars. constructor.
Qed.

(** A printed integer is made of digits and the minus sign. *)
Lemma pretty_Z_chars (z : Z) :
  Forall (λ c, c ∈ number_chars) (chars (pretty z)).
Proof.
  destruct z as [|p|p].
  - repeat constructor.
  - apply (pretty_N_chars (N.pos p)).
  - change (pretty (Z.neg p)) with ("-" +:+ pretty (N.pos p)).
    rewrite chars_app. apply Forall_app. split; [|apply pretty_N_chars].
    repeat constructor.
Qed.

Lemma name_tail_inj {A : Type} (tail : A → string) (table : list A)
    (mark : ascii) (y y' : Z) (x x' : A) :
  mark ∉ number_chars →
  Forall (λ a, ∃ r, chars (tail a) = mark :: r) table →
  NoDup (chars ∘ tail <$> table) →
  x ∈ table → x' ∈ table →
  pretty y +:+ tail x = pretty y' +:+ tail x' →
  y = y' ∧ x = x'.
Proof.
  intros Hmark Hhead Hnd Hx Hx' Heq.
  rewrite Forall_forall in Hhead.
  destruct (Hhead x Hx) as [r Hr]. destruct (Hhead x' Hx') as [r' Hr'].
  apply (f_equal chars) in Heq. rewrite !chars_app in Heq.
  assert (∀ z : Z, mark ∉ chars (pretty z)) as Hno.
  { intros z Hin. apply Hmark.
    pose proof (pretty_Z_chars z) as Hz. rewrite Forall_forall in Hz. auto. }
  pose proof Heq as Heq'. rewrite Hr, Hr' in Heq'.
  apply not_elem_of_app_cons_inv_l in Heq' as (Hy & _ & _); [|by apply Hno..].
  apply chars_inj, (inj pretty) in Hy. split; [done|]. subst y'.
  apply app_inv_head in Heq.
  by apply (inj_on_NoDup (chars ∘ tail) table).
Qed.

Lemma year_mark_fresh : year_mark ∉ number_chars.
Proof. apply (bool_decide_unpack _). by vm_compute. Qed.

Lemma week_name_tails_head :
  Forall (λ mw, ∃ r, chars (week_name_tail mw) = year_mark :: r) week_slots.
Proof. apply Forall_forall. intros mw _. by eexists. Qed.

Lemma week_name_tails_NoDup : NoDup (chars ∘ week_name_tail <$> week_slots).
Proof. apply (bool_decide_unpack _). by vm_compute. Qed.

(** The name of a week determines its year, month and week. *)
Lemma week_name_inj (w w' : Week (num:=num)) :
  bucket_ok w → bucket_ok w' → week_name w = week_name w' → slot w = slot w'.
Proof.
  intros (Hm & Hk & _) (Hm' & Hk' & _) Hname.
  change (pretty (year w) +:+ week_name_tail (month w, week w)
          = pretty (year w') +:+ week_name_tail (month w', week w')) in Hname.
  apply (name_tail_inj week_name_tail week_slots year_mark) in Hname
    as [Hy [= Hmm Hkk]];
    [|apply year_mark_fresh|apply week_name_tails_head
     |apply week_name_tails_NoDup|by apply elem_of_week_slots..].
  unfold slot. by rewrite Hy, Hmm, Hkk.
Qed.

Lemma roll_names (bal : num) (weeks : list Week) :
  Forall (λ b, name b = week_name (base b)) (roll bal weeks).
Proof.
  revert bal. induction weeks as [|w weeks IH]; intros bal; simpl;
    constructor; [done|apply IH].
Qed.

Lemma ledger_names (incomes expenses emergencyFunds : list DataItem)
    (today : Date) b :
  b ∈ weeklyFullData incomes expenses emergencyFunds today →
  name b = week_name (base b).
Proof.
  intros Hb.
  destruct (weeklyFullData_roll incomes expenses emergencyFunds today)
    as [Hnil|[weeks Heq]].
  - rewrite Hnil in Hb. by apply elem_of_nil in Hb.
  - rewrite Heq in Hb. pose proof (roll_names INITIAL_BALANCE weeks) as Hn.
    rewrite Forall_forall in Hn. by apply Hn.
Qed.

Lemma ledger_NoDup (incomes expenses emergencyFunds : list DataItem)
    (today : Date) :
  NoDup (slot ∘ base
           <$> weeklyFullData incomes expenses emergencyFunds today).
Proof.
  destruct (ledger_shape incomes expenses emergencyFunds today)
    as [->|(s & e & _ & ->)]; [constructor|apply ledger_slots_NoDup].
Qed.

(** In the ledger a name is the name of one week only. *)
Lemma ledger_name_inj (incomes expenses emergencyFunds : list DataItem)
    (today : Date) b b' :
  b ∈ weeklyFullData incomes expenses emergencyFunds today →
  b' ∈ weeklyFullData incomes expenses emergencyFunds today →
  name b = name b' → b = b'.
Proof.
  intros Hb Hb' Hname.
  apply (inj_on_NoDup (slot ∘ base) _ b b'
           (ledger_NoDup incomes expenses emergencyFunds today) Hb Hb').
  simpl. apply week_name_inj.
  - by eapply (ledger_field _ _ _ _ _ f_income).
  - by eapply (ledger_field _ _ _ _ _ f_income).
  - by rewrite <- (ledger_names _ _ _ _ _ Hb), <- (ledger_names _ _ _ _ _ Hb').
Qed.

(** ** The half-month view of the ledger *)

Lemma group_week_new (viewType : ViewType) (map : list (string * Group)) b :
  obj_get map (group_key viewType b) = None →
  group_week viewType map b
  = map ++ [(group_key viewType b, add_week (new_group viewType b) b)].
Proof.
  intros Hget. unfold group_week. rewrite Hget. by apply obj_set_new.
Qed.

Lemma group_week_more (viewType : ViewType) (map : list (string * Group))
    (k : string) (it : Group) b :
  obj_get map k = None →
  group_key viewType b = k →
  group_week viewType (map ++ [(k, it)]) b = map ++ [(k, add_week it b)].
Proof.
  intros Hget Hk. unfold group_week.
  rewrite Hk, (obj_get_last _ _ _ Hget). by apply obj_set_last.
Qed.

Lemma group_key_semi b (y m k : Z) :
  slot (base b) = (y, m, k) →
  group_key semi_monthly b
  = (pretty y +:+ "-" +:+ pretty m) +:+ "-" +:+ half_name k.
Proof.
  unfold slot, group_key, sub_of, half_name. intros [= -> -> ->]. simpl.
  apply chars_inj. by rewrite !chars_app, <- !app_assoc.
Qed.

Lemma half_name_no_dash (k : Z) : "-"%char ∉ chars (half_name k).
Proof.
  unfold half_name. case_match; apply (bool_decide_unpack _); by vm_compute.
Qed.

Lemma half_name_inj (k k' : Z) : half_name k = half_name k' → half_of k = half_of k'.
Proof. unfold half_name, half_of. by repeat case_match. Qed.

(** The key of a half month determines the month and the half. *)
Lemma semi_key_inj (y m k y' m' k' : Z) :
  1 ≤ m ≤ 12 → 1 ≤ m' ≤ 12 →
  (pretty y +:+ "-" +:+ pretty m) +:+ "-" +:+ half_name k
  = (pretty y' +:+ "-" +:+ pretty m') +:+ "-" +:+ half_name k' →
  y = y' ∧ m = m' ∧ half_of k = half_of k'.
Proof.
  intros Hm Hm' Hkey.
  apply (f_equal chars) in Hkey.
  rewrite (chars_app (pretty y +:+ "-" +:+ pretty m)) in Hkey.
  rewrite (chars_app (pretty y' +:+ "-" +:+ pretty m')) in Hkey.
  change (chars ("-" +:+ ?s)) with ("-"%char :: chars s) in Hkey.
  apply not_elem_of_app_cons_inv_r in Hkey as (Hmonth & _ & Hhalf);
    [|apply half_name_no_dash..].
  apply chars_inj, month_key_inj in Hmonth as [-> ->]; [|done..].
  apply chars_inj, half_name_inj in Hhalf. done.
Qed.

(** On a ledger made of half months the loop of the aggregation leaves
    one entry for every half month, in order. *)
Lemma group_halves (ws : list BalancedWeek) (map : list (string * Group)) :
  half_blocks ws →
  Forall (λ b, obj_get map (group_key semi_monthly b) = None) ws →
  foldl (group_week semi_monthly) map ws = map ++ half_groups ws.
Proof.
  intros Hblocks. revert map.
  induction Hblocks as [|y m k b1 b2 rest Hm Hk H1 H2 Hrest _ IH];
    intros map Hnew; simpl.
  { by rewrite app_nil_r. }
  apply Forall_cons in Hnew as [Hk1 Hnew].
  apply Forall_cons in Hnew as [_ Hnew].
  pose proof (group_key_semi _ _ _ _ H1) as K1.
  pose proof (group_key_semi _ _ _ _ H2) as K2.
  assert (half_name (k + 1) = half_name k) as Hhalf.
  { unfold half_name. destruct Hk as [->| ->]; done. }
  rewrite (group_week_new semi_monthly map b1) by done.
  rewrite (group_week_more semi_monthly _ _ _ b2 Hk1)
    by (by rewrite K1, K2, Hhalf).
  rewrite IH.
  - by rewrite <- app_assoc.
  - rewrite Forall_forall in Hrest, Hnew. apply Forall_forall.
    intros b Hb. destruct (Hrest b Hb) as [Hbm Hne].
    rewrite obj_get_app_ne; [by apply Hnew|].
    rewrite K1.
    rewrite (group_key_semi b (year (base b)) (month (base b))
               (week (base b)) eq_refl).
    intros (-> & -> & Hh)%semi_key_inj; [|done..].
    apply Hne. by rewrite Hh.
Qed.

(** A ledger with the slots of consecutive months is made of half
    months. *)
Lemma halves_of_slots (ws : list (BalancedWeek (num:=num)))
    (c : FirstOfMonth) (n : nat) :
  fm_wf c →
  slot ∘ base <$> ws = slot <$> (months_from c n ≫= month_weeks (num:=num)) →
  half_blocks ws.
Proof.
  revert c ws. induction n as [|n IH]; intros c ws Hc Hslots.
  { apply fmap_nil_inv in Hslots as ->. constructor. }
  cbn [months_from] in Hslots. rewrite bind_cons, fmap_app in Hslots.
  rewrite month_weeks_slots in Hslots. simpl in Hslots.
  destruct ws as [|b1 [|b2 [|b3 [|b4 rest]]]]; try done.
  injection Hslots as Y1 M1 K1 Y2 M2 K2 Y3 M3 K3 Y4 M4 K4 Hrest.
  unfold fm_wf in Hc.
  assert (Forall (λ b, 1 ≤ month (base b) ≤ 12
                       ∧ (year (base b), month (base b))
                         ≠ (fm_year c, fm_month c + 1)) rest) as Hlater.
  { apply Forall_forall. intros b Hb.
    assert ((slot ∘ base) b
            ∈ slot <$> (months_from (setMonth_next c) n
                          ≫= month_weeks (num:=num))) as Hb'.
    { rewrite <- Hrest. by apply (list_elem_of_fmap_2 (slot ∘ base)). }
    apply list_elem_of_fmap_1 in Hb' as (w0 & Hw0 & Hin).
    apply list_elem_of_bind in Hin as (c' & Hin & Hc').
    pose proof (months_from_wf _ n (setMonth_next_wf c)) as Hwf.
    rewrite Forall_forall in Hwf. specialize (Hwf c' Hc').
    apply months_from_number in Hc'. rewrite setMonth_next_number in Hc'.
    apply (list_elem_of_fmap_2 slot) in Hin. rewrite month_weeks_slots in Hin.
    apply list_elem_of_fmap_1 in Hin as (k & Hk & _).
    rewrite Hk in Hw0. simpl in Hw0. unfold slot in Hw0.
    injection Hw0 as -> -> _.
    unfold fm_wf, month_number in *. split; [lia|].
    intros [= ? ?]. lia. }
  apply (halves_cons (fm_year c) (fm_month c + 1) 1);
    [lia|by left|by unfold slot; rewrite Y1, M1, K1
    |by unfold slot; rewrite Y2, M2, K2| |].
  - repeat apply Forall_cons_2.
    + rewrite M3, K3, Y3. split; [lia|]. by intros [= ].
    + rewrite M4, K4, Y4. split; [lia|]. by intros [= ].
    + eapply Forall_impl; [exact Hlater|]. simpl.
      intros b [? Hne]. split; [done|]. intros [= ? ? _]. apply Hne. congruence.
  - apply (halves_cons (fm_year c) (fm_month c + 1) 3);
      [lia|by right|by unfold slot; rewrite Y3, M3, K3
      |by unfold slot; rewrite Y4, M4, K4| |].
    + eapply Forall_impl; [exact Hlater|]. simpl.
      intros b [? Hne]. split; [done|]. intros [= ? ? _]. apply Hne. congruence.
    + apply (IH (setMonth_next c)); [apply setMonth_next_wf|done].
Qed.

(** ** The periods of the ledger, chunk by chunk *)

Lemma month_chunks (ws : list BalancedWeek) :
  month_blocks ws →
  (month_groups ws).*2 = group_from monthly <$> chunks4 ws
  ∧ concat (chunk_weeks <$> chunks4 ws) = ws
  ∧ Forall (chunk_slots monthly) (chunks4 ws).
Proof.
  induction 1 as [|y m b1 b2 b3 b4 rest Hm H1 H2 H3 H4 _ _ (IH1 & IH2 & IH3)];
    [done|].
  cbn [month_groups chunks4]. rewrite !fmap_cons, IH1. split_and!; [done| |].
  - by rewrite concat_cons, IH2.
  - constructor; [|done]. exists y, m. split; [done|].
    unfold chunk_weeks. simpl. by rewrite H1, H2, H3, H4.
Qed.

Lemma half_chunks (ws : list BalancedWeek) :
  half_blocks ws →
  (half_groups ws).*2 = group_from semi_monthly <$> chunks2 ws
  ∧ concat (chunk_weeks <$> chunks2 ws) = ws
  ∧ Forall (chunk_slots semi_monthly) (chunks2 ws).
Proof.
  induction 1 as [|y m k b1 b2 rest Hm Hk H1 H2 _ _ (IH1 & IH2 & IH3)];
    [done|].
  cbn [half_groups chunks2]. rewrite !fmap_cons, IH1. split_and!; [done| |].
  - by rewrite concat_cons, IH2.
  - constructor; [|done]. exists y, m. split; [done|].
    unfold chunk_weeks. simpl. rewrite H1, H2.
    destruct Hk as [-> | ->]; [by left|by right].
Qed.

(** The entries the aggregation leaves in [map] for the ledger: one for
    every month, or half month, made of its weeks in order. *)
Lemma ledger_view (incomes expenses emergencyFunds : list DataItem)
    (today : Date) (viewType : ViewType) :
  viewType ≠ weekly →
  let ws := weeklyFullData incomes expenses emergencyFunds today in
  Object_values (foldl (group_week viewType) [] ws)
  = group_from viewType <$> chunks viewType ws
  ∧ concat (chunk_weeks <$> chunks viewType ws) = ws
  ∧ Forall (chunk_slots viewType) (chunks viewType ws).
Proof.
  intros Hv ws.
  destruct (ledger_shape incomes expenses emergencyFunds today)
    as [Hnil|(s & e & Hs & Heq)].
  { subst ws. rewrite Hnil. by destruct viewType. }
  assert (slot ∘ base <$> ws
          = slot <$> (months_from s
                        (Z.to_nat (month_number e - month_number s + 1))
                        ≫= month_weeks (num:=num))) as Hslots.
  { subst ws. rewrite Heq, list_fmap_compose, roll_base.
    apply ledger_weeks_slots. }
  destruct viewType; [done| |]; unfold Object_values, chunks.
  - pose proof (halves_of_slots ws s _ Hs Hslots) as Hblocks.
    rewrite (group_halves ws [] Hblocks) by (apply Forall_forall; by intros).
    by apply half_chunks.
  - pose proof (blocks_of_slots ws s _ Hs Hslots) as Hblocks.
    rewrite (group_blocks ws [] Hblocks) by (apply Forall_forall; by intros).
    by apply month_chunks.
Qed.

Lemma foldl_add_week (it : Group) (l : list BalancedWeek) :
  foldl add_week it l
  = mkGroup (g_name it) (g_year it) (g_month it) (g_subType it)
      (sum_from (g_income it) (income ∘ base <$> l))
      (sum_from (g_expense it) (expense ∘ base <$> l))
      (g_emergencyFund it) (g_opening it) (g_weeks it ++ l).
Proof.
  revert it. induction l as [|b l IH]; intros it; simpl.
  - rewrite app_nil_r. by destruct it.
  - rewrite IH. simpl. by rewrite <- app_assoc.
Qed.

Lemma last_chunk (c : BalancedWeek (num:=num) * list BalancedWeek) :
  last (chunk_weeks c) = Some (chunk_last c).
Proof.
  unfold chunk_weeks, chunk_last. destruct c as [b l]. simpl.
  destruct l as [|b' l _] using rev_ind; [done|].
  by rewrite app_comm_cons, !last_snoc.
Qed.

(** The callback of the last step on such a group. *)
Lemma finish_group_from (viewType : ViewType) (ws : list BalancedWeek)
    (c : BalancedWeek (num:=num) * list BalancedWeek) :
  finish viewType ws (group_from viewType c)
  = Some (period_from viewType ws c).
Proof.
  pose proof (last_chunk c) as Hlast. unfold finish.
  replace (g_weeks (group_from viewType c)) with (chunk_weeks c)
    by (unfold group_from; by rewrite foldl_add_week).
  rewrite Hlast. unfold period_from, group_from.
  by rewrite !foldl_add_week.
Qed.

Lemma mapM_fmap_Some {A B C : Type} (f : B → option C) (g : A → B)
    (h : A → C) (l : list A) :
  (∀ x, f (g x) = Some (h x)) → mapM f (g <$> l) = Some (h <$> l).
Proof.
  intros Hf. apply mapM_Some. apply Forall2_fmap, Forall2_same_length_lookup.
  split; [done|]. intros i x y Hx Hy. simpl. rewrite Hf. congruence.
Qed.

(** The aggregated views of the ledger, as a function of its chunks. *)
Lemma ledger_aggregated (incomes expenses emergencyFunds : list DataItem)
    (today : Date) (viewType : ViewType) :
  viewType ≠ weekly →
  let ws := weeklyFullData incomes expenses emergencyFunds today in
  aggregatedData ws viewType
  = Some (PAggregated <$> (period_from viewType ws <$> chunks viewType ws)).
Proof.
  intros Hv ws.
  destruct (ledger_view incomes expenses emergencyFunds today viewType Hv)
    as (Hview & _ & _). fold ws in Hview.
  assert (mapM (finish viewType ws)
            (Object_values (foldl (group_week viewType) [] ws))
          = Some (period_from viewType ws <$> chunks viewType ws)) as HM.
  { rewrite Hview. apply mapM_fmap_Some. apply finish_group_from. }
  unfold aggregatedData. rewrite HM. by destruct viewType.
Qed.

(** ** What the aggregated views of the ledger keep *)

Lemma chunk_week_in (cs : list (BalancedWeek (num:=num) * list BalancedWeek))
    (c : BalancedWeek (num:=num) * list BalancedWeek) b :
  c ∈ cs → b ∈ chunk_weeks c → b ∈ concat (chunk_weeks <$> cs).
Proof.
  intros Hc Hb. apply list_elem_of_In, in_concat.
  exists (chunk_weeks c). split; apply list_elem_of_In; [|done].
  by apply list_elem_of_fmap_2.
Qed.

Lemma group_from_fields (viewType : ViewType)
    (c : BalancedWeek (num:=num) * list BalancedWeek) :
  g_year (group_from viewType c) = year (base c.1)
  ∧ g_month (group_from viewType c) = month (base c.1)
  ∧ g_subType (group_from viewType c) = sub_of viewType c.1.
Proof. unfold group_from. by rewrite foldl_add_week. Qed.

(** The periods of a view of the ledger and, for each, the weeks it is
    made of. *)
Lemma ledger_periods (incomes expenses emergencyFunds : list DataItem)
    (today : Date) (viewType : ViewType) :
  viewType ≠ weekly →
  let ws := weeklyFullData incomes expenses emergencyFunds today in
  ∃ cs,
    aggregatedData ws viewType
    = Some (PAggregated <$> (period_from viewType ws <$> cs))
    ∧ concat (chunk_weeks <$> cs) = ws
    ∧ Forall (chunk_slots viewType) cs.
Proof.
  intros Hv ws. exists (chunks viewType ws).
  destruct (ledger_view incomes expenses emergencyFunds today viewType Hv)
    as (_ & Hconcat & Hslots).
  split; [by apply ledger_aggregated|done].
Qed.

(** X5.  In the half-month view of the ledger every period is made of
    two weeks of one month, weeks 1 and 2 for a first half and weeks 3
    and 4 for a second half; its income and expense are the sums of
    theirs, from zero and in this order, its opening is the opening of
    the first, its closing the closing of the second, and its net is
    income less expense. *)
Theorem half_month_aggregation
    (incomes expenses emergencyFunds : list DataItem) (today : Date) :
  let ws := weeklyFullData incomes expenses emergencyFunds today in
  ∃ ps,
    aggregatedData ws semi_monthly = Some ps
    ∧ ∀ p, p ∈ ps →
        ∃ a b1 b2 (k : Z),
          p = PAggregated a
          ∧ a_weeks a = [b1; b2]
          ∧ (k = 1 ∧ a_subType a = first_half
             ∨ k = 3 ∧ a_subType a = second_half)
          ∧ 1 ≤ a_month a ≤ 12
          ∧ slot (base b1) = (a_year a, a_month a, k)
          ∧ slot (base b2) = (a_year a, a_month a, k + 1)
          ∧ a_income a = sum_from (nlit 0) (income ∘ base <$> a_weeks a)
          ∧ a_expense a = sum_from (nlit 0) (expense ∘ base <$> a_weeks a)
          ∧ a_opening a = opening b1
          ∧ a_closing a = closing b2
          ∧ a_net a = nsub (a_income a) (a_expense a).
Proof.
  intros ws.
  destruct (ledger_periods incomes expenses emergencyFunds today semi_monthly)
    as (cs & Hagg & _ & Hslots); [done|].
  eexists. split; [exact Hagg|].
  intros p (a & -> & (c & -> & Hc)%list_elem_of_fmap_1)%list_elem_of_fmap_1.
  rewrite Forall_forall in Hslots.
  destruct (Hslots c Hc) as (y & m & Hm & Hc2).
  destruct c as [b1 l]. unfold chunk_weeks in Hc2. simpl in Hc2.
  assert (∃ b2 k, l = [b2] ∧ (k = 1 ∨ k = 3)
                  ∧ slot (base b1) = (y, m, k)
                  ∧ slot (base b2) = (y, m, k + 1))
    as (b2 & k & -> & Hk & H1 & H2).
  { destruct l as [|b2 [|? ?]]; [by destruct Hc2|..].
    - exists b2. destruct Hc2 as [[= Y1 M1 K1 Y2 M2 K2]|[= Y1 M1 K1 Y2 M2 K2]];
        [exists 1|exists 3]; unfold slot; rewrite Y1, M1, K1, Y2, M2, K2; auto.
    - by destruct Hc2. }
  exists (period_from semi_monthly ws (b1, [b2])), b1, b2, k.
  pose proof H1 as Hslot1. unfold slot in H1. injection H1 as Hy Hmm Hkk.
  unfold period_from, chunk_weeks, chunk_last, sub_of. simpl.
  rewrite Hy, Hmm, Hkk.
  split_and!; try done; try lia.
  destruct Hk as [-> | ->]; [by left|by right].
Qed.

(** X6.  The half-month and month views of the ledger lose no week and
    add none: the constituent weeks of the periods, put end to end in
    the order of the periods, are the weekly sequence. *)
Theorem aggregation_keeps_every_week
    (incomes expenses emergencyFunds : list DataItem) (today : Date)
    (viewType : ViewType) :
  viewType ≠ weekly →
  let ws := weeklyFullData incomes expenses emergencyFunds today in
  ∃ periods,
    aggregatedData ws viewType = Some (PAggregated <$> periods)
    ∧ concat (a_weeks <$> periods) = ws.
Proof.
  intros Hv ws.
  destruct (ledger_periods incomes expenses emergencyFunds today viewType Hv)
    as (cs & Hagg & Hconcat & _).
  eexists. split; [exact Hagg|].
  by rewrite <- list_fmap_compose.
Qed.

Lemma roll_chained (bal : num) (weeks : list Week) :
  chained bal (roll bal weeks).
Proof.
  revert bal. induction weeks as [|w weeks IH]; intros bal; simpl; [done|].
  split; [done|apply IH].
Qed.

Lemma ledger_chained (incomes expenses emergencyFunds : list DataItem)
    (today : Date) :
  chained INITIAL_BALANCE
    (weeklyFullData incomes expenses emergencyFunds today).
Proof.
  destruct (weeklyFullData_roll incomes expenses emergencyFunds today)
    as [->|[weeks ->]]; [done|apply roll_chained].
Qed.

Lemma chained_app (bal : num) (l k : list BalancedWeek) :
  chained bal (l ++ k)
  → chained bal l
    ∧ chained (from_option closing bal (last l)) k.
Proof.
  revert bal. induction l as [|b l IH]; intros bal; simpl; [done|].
  intros [Ho Hc]. destruct (IH _ Hc) as [Hl Hk]. split; [done|].
  destruct l as [|b' l]; [by subst|].
  change (last (b :: b' :: l)) with (last (b' :: l)).
  destruct (last_is_Some (b' :: l)) as [_ [x Hx]]; [done|].
  by rewrite Hx in Hk |- *.
Qed.

(** The periods of chained weeks are chained. *)
Lemma periods_chain (viewType : ViewType) (ws0 : list BalancedWeek) (bal : num)
    (cs : list (BalancedWeek (num:=num) * list BalancedWeek)) :
  chained bal (concat (chunk_weeks <$> cs)) →
  periods_chained bal (period_from viewType ws0 <$> cs).
Proof.
  revert bal. induction cs as [|c cs IH]; intros bal; [done|].
  rewrite fmap_cons, concat_cons. intros [Hc Hrest]%chained_app.
  rewrite last_chunk in Hrest. simpl in Hrest.
  rewrite fmap_cons. simpl. split; [apply Hc|by apply IH].
Qed.

Lemma periods_chained_step (bal : num) (l : list Aggregated) (i : nat) p c :
  periods_chained bal l →
  l !! i = Some p → l !! S i = Some c → a_opening c = a_closing p.
Proof.
  revert bal i. induction l as [|a l IH]; intros bal i; [done|].
  intros [_ Hl]. destruct i as [|i]; simpl.
  - intros [= <-] Hc. destruct l as [|a' l]; [done|].
    simpl in Hc, Hl. injection Hc as <-. apply Hl.
  - by apply (IH (a_closing a)).
Qed.

(** X7.  Balance continuity carries over to the half-month and month
    views of the ledger: the first period opens at the starting balance
    and every later period opens at the closing of the period before
    it. *)
Theorem period_balances_chain
    (incomes expenses emergencyFunds : list DataItem) (today : Date)
    (viewType : ViewType) :
  viewType ≠ weekly →
  ∃ periods,
    aggregatedData (weeklyFullData incomes expenses emergencyFunds today)
      viewType = Some (PAggregated <$> periods)
    ∧ (∀ first, head periods = Some first →
         a_opening first = INITIAL_BALANCE)
    ∧ (∀ (i : nat) prev cur,
         periods !! i = Some prev → periods !! S i = Some cur →
         a_opening cur = a_closing prev).
Proof.
  intros Hv.
  destruct (ledger_periods incomes expenses emergencyFunds today viewType Hv)
    as (cs & Hagg & Hconcat & _).
  eexists. split; [exact Hagg|].
  pose proof (ledger_chained incomes expenses emergencyFunds today) as Hch.
  rewrite <- Hconcat in Hch.
  apply (periods_chain viewType
           (weeklyFullData incomes expenses emergencyFunds today)) in Hch.
  split.
  - intros first Hfirst.
    destruct (period_from viewType _ <$> cs) as [|a l]; [done|].
    injection Hfirst as <-. apply Hch.
  - intros i prev cur. by apply (periods_chained_step INITIAL_BALANCE).
Qed.

Lemma last_concat_chunks
    (cs : list (BalancedWeek (num:=num) * list BalancedWeek)) :
  last (concat (chunk_weeks <$> cs)) = chunk_last <$> last cs.
Proof.
  destruct cs as [|c cs _] using rev_ind; [done|].
  rewrite fmap_app, concat_app, last_snoc.
  rewrite fmap_cons, concat_cons, fmap_nil, concat_nil, app_nil_r.
  by rewrite last_app, last_chunk.
Qed.

(** X8.  The figure of the balance card does not depend on the view: in
    every view of the ledger it is the closing of the last week of the
    ledger (and the literal 0 when the ledger is empty). *)
Theorem aggregate_balance_in_every_view
    (incomes expenses emergencyFunds : list DataItem) (today : Date)
    (viewType : ViewType) :
  let ws := weeklyFullData incomes expenses emergencyFunds today in
  ∃ ps,
    aggregatedData ws viewType = Some ps
    ∧ aggregate_balance ps = from_option closing (nlit 0) (last ws).
Proof.
  intros ws. destruct (decide (viewType = weekly)) as [->|Hv].
  - exists (PWeek <$> ws). split; [done|].
    unfold aggregate_balance. rewrite fmap_last. by destruct (last ws).
  - destruct (ledger_periods incomes expenses emergencyFunds today
                viewType Hv) as (cs & Hagg & Hconcat & _).
    eexists. split; [exact Hagg|]. fold ws in Hconcat.
    unfold aggregate_balance.
    rewrite <- Hconcat, last_concat_chunks, !fmap_last.
    by destruct (last cs).
Qed.

(** X9.  In the half-month and month views of the ledger the emergency
    fund of a period is the emergency fund of its own last week (week 2
    of a first half, week 4 of a second half or of a month): the week
    the snapshot looks up is always there, and the fallback to 0 is
    never taken. *)
Theorem emergency_fund_of_last_week
    (incomes expenses emergencyFunds : list DataItem) (today : Date)
    (viewType : ViewType) :
  viewType ≠ weekly →
  ∃ periods,
    aggregatedData (weeklyFullData incomes expenses emergencyFunds today)
      viewType = Some (PAggregated <$> periods)
    ∧ ∀ a, a ∈ periods →
        ∃ last_week,
          last (a_weeks a) = Some last_week
          ∧ a_emergencyFund a = emergencyFund (base last_week).
Proof.
  intros Hv.
  destruct (ledger_periods incomes expenses emergencyFunds today viewType Hv)
    as (cs & Hagg & Hconcat & Hslots).
  eexists. split; [exact Hagg|].
  intros a (c & -> & Hc)%list_elem_of_fmap_1.
  exists (chunk_last c). split; [apply last_chunk|].
  rewrite Forall_forall in Hslots.
  destruct (Hslots c Hc) as (y & m & Hm & Hc2).
  pose proof (ledger_NoDup incomes expenses emergencyFunds today) as Hnd.
  assert (∀ b, b ∈ chunk_weeks c →
            b ∈ weeklyFullData incomes expenses emergencyFunds today)
    as Hin.
  { intros b Hb. rewrite <- Hconcat. by eapply chunk_week_in. }
  destruct (group_from_fields viewType c) as (Gy & Gm & Gs).
  unfold period_from. simpl. unfold efValue. rewrite Gy, Gm, Gs.
  destruct c as [b1 l]. unfold chunk_weeks, chunk_last in *. simpl in *.
  destruct viewType; [done| |].
  - assert (∃ b2, l = [b2]) as [b2 ->].
    { destruct l as [|b2 [|? ?]]; [by destruct Hc2|by eexists|by destruct Hc2]. }
    simpl. unfold sub_of. simpl.
    destruct Hc2 as [[= Y1 M1 K1 Y2 M2 K2]|[= Y1 M1 K1 Y2 M2 K2]];
      rewrite K1; simpl.
    + rewrite (find_week_unique _ b2 (year (base b1)) (month (base b1)) 2);
        [done|done| |].
      * apply Hin. by do 1 apply list_elem_of_further, list_elem_of_here.
      * unfold slot. by rewrite Y1, M1, Y2, M2, K2.
    + rewrite (find_week_unique _ b2 (year (base b1)) (month (base b1)) 4);
        [done|done| |].
      * apply Hin. by do 1 apply list_elem_of_further, list_elem_of_here.
      * unfold slot. by rewrite Y1, M1, Y2, M2, K2.
  - destruct l as [|b2 [|b3 [|b4 [|? ?]]]]; try done.
    injection Hc2 as Y1 M1 K1 Y2 M2 K2 Y3 M3 K3 Y4 M4 K4. simpl.
    rewrite (find_week_unique _ b4 (year (base b1)) (month (base b1)) 4);
      [done|done| |].
    + apply Hin. by do 3 apply list_elem_of_further; apply list_elem_of_here.
    + unfold slot. by rewrite Y1, M1, Y4, M4, K4.
Qed.

(** ** The names of the periods *)

Lemma month_name_tails_NoDup :
  NoDup (chars ∘ month_name_tail <$> seqZ 1 12).
Proof. apply (bool_decide_unpack _). by vm_compute. Qed.

Lemma semi_name_tails_NoDup : NoDup (chars ∘ semi_name_tail <$> semi_slots).
Proof. apply (bool_decide_unpack _). by vm_compute. Qed.

(** The name of a period of the month view, or of the half-month view,
    determines the date of its first week. *)
Lemma chunk_name_inj (viewType : ViewType)
    (c c' : BalancedWeek (num:=num) * list BalancedWeek) :
  chunk_slots viewType c → chunk_slots viewType c' →
  group_name viewType c.1 = group_name viewType c'.1 →
  slot (base c.1) = slot (base c'.1).
Proof.
  intros (y & m & Hm & Hc) (y' & m' & Hm' & Hc') Hname.
  destruct c as [b l], c' as [b' l']. unfold chunk_weeks in *. simpl in *.
  destruct viewType; [done| |].
  - assert (∃ k, slot (base b) = (y, m, k) ∧ (k = 1 ∨ k = 3))
      as (k & Hb & Hk).
    { destruct Hc as [Hc|Hc]; [exists 1|exists 3];
        (split; [congruence|auto]). }
    assert (∃ k', slot (base b') = (y', m', k') ∧ (k' = 1 ∨ k' = 3))
      as (k' & Hb' & Hk').
    { destruct Hc' as [Hc'|Hc']; [exists 1|exists 3];
        (split; [congruence|auto]). }
    rewrite Hb, Hb'. unfold slot in Hb, Hb'.
    injection Hb as Y M K. injection Hb' as Y' M' K'.
    unfold group_name, sub_of in Hname. simpl in Hname.
    rewrite Y, M, K, Y', M', K' in Hname.
    change (pretty y +:+ semi_name_tail (m, k)
            = pretty y' +:+ semi_name_tail (m', k')) in Hname.
    apply (name_tail_inj semi_name_tail semi_slots year_mark) in Hname
      as [-> [= -> ->]]; [done|apply year_mark_fresh| | | |].
    + apply Forall_forall. intros mk _. by eexists.
    + apply semi_name_tails_NoDup.
    + unfold semi_slots. apply list_elem_of_bind. exists m. split.
      * destruct Hk as [-> | ->];
          repeat (apply list_elem_of_here || apply list_elem_of_further).
      * apply elem_of_seqZ. lia.
    + unfold semi_slots. apply list_elem_of_bind. exists m'. split.
      * destruct Hk' as [-> | ->];
          repeat (apply list_elem_of_here || apply list_elem_of_further).
      * apply elem_of_seqZ. lia.
  - assert (slot (base b) = (y, m, 1)) as Hb by congruence.
    assert (slot (base b') = (y', m', 1)) as Hb' by congruence.
    rewrite Hb, Hb'. unfold slot in Hb, Hb'.
    injection Hb as Y M K. injection Hb' as Y' M' K'.
    unfold group_name in Hname. simpl in Hname.
    rewrite Y, M, Y', M' in Hname.
    change (pretty y +:+ month_name_tail m
            = pretty y' +:+ month_name_tail m') in Hname.
    apply (name_tail_inj month_name_tail (seqZ 1 12) year_mark) in Hname
      as [-> ->]; [done|apply year_mark_fresh| | | |].
    + apply Forall_forall. intros mk _. by eexists.
    + apply month_name_tails_NoDup.
    + apply elem_of_seqZ. lia.
    + apply elem_of_seqZ. lia.
Qed.

Lemma NoDup_fmap_transfer {A B C : Type} (f : A → B) (g : A → C)
    (l : list A) :
  (∀ x y, x ∈ l → y ∈ l → g x = g y → f x = f y) →
  NoDup (f <$> l) → NoDup (g <$> l).
Proof.
  induction l as [|x l IH]; intros Hfg Hnd; [constructor|].
  change (NoDup (f x :: (f <$> l))) in Hnd.
  change (NoDup (g x :: (g <$> l))).
  apply NoDup_cons in Hnd as [Hx Hnd].
  apply NoDup_cons. split.
  - intros (y & Hgy & Hy)%list_elem_of_fmap_1. apply Hx.
    rewrite (Hfg x y); [by apply list_elem_of_fmap_2| | |done].
    + apply list_elem_of_here.
    + by apply list_elem_of_further.
  - apply IH; [|done]. intros y z Hy Hz.
    apply Hfg; by apply list_elem_of_further.
Qed.

Lemma NoDup_firsts {B : Type} (g : BalancedWeek (num:=num) → B)
    (cs : list (BalancedWeek (num:=num) * list BalancedWeek)) :
  NoDup (g <$> concat (chunk_weeks <$> cs)) → NoDup (g ∘ fst <$> cs).
Proof.
  induction cs as [|c cs IH]; [constructor|].
  rewrite !fmap_cons, concat_cons. unfold chunk_weeks at 1.
  rewrite <- app_comm_cons, fmap_cons.
  intros [Hc Hnd]%NoDup_cons. rewrite fmap_app in Hc, Hnd.
  apply NoDup_app in Hnd as (_ & _ & Hnd).
  apply NoDup_cons. split; [|by apply IH].
  intros (c' & Hg & Hc')%list_elem_of_fmap_1. apply Hc.
  apply elem_of_app. right. simpl in Hg. rewrite Hg.
  apply list_elem_of_fmap_2. apply (chunk_week_in cs c' c'.1 Hc').
  apply list_elem_of_here.
Qed.

Lemma view_names_NoDup
    (incomes expenses emergencyFunds : list DataItem) (today : Date)
    (viewType : ViewType) ps :
  aggregatedData (weeklyFullData incomes expenses emergencyFunds today)
    viewType = Some ps →
  NoDup (period_name <$> ps).
Proof.
  intros Hps.
  destruct (decide (viewType = weekly)) as [->|Hv].
  - injection Hps as <-. rewrite <- list_fmap_compose.
    apply NoDup_fmap_2_strong.
    + intros b b' Hb Hb'.
      by apply (ledger_name_inj incomes expenses emergencyFunds today).
    + eapply NoDup_fmap_1. apply ledger_NoDup.
  - destruct (ledger_periods incomes expenses emergencyFunds today
                viewType Hv) as (cs & Hagg & Hconcat & Hslots).
    rewrite Hagg in Hps. injection Hps as <-.
    rewrite <- !list_fmap_compose.
    rewrite Forall_forall in Hslots.
    apply (NoDup_fmap_transfer (slot ∘ base ∘ fst)).
    + intros c c' Hc Hc'. apply chunk_name_inj; by apply Hslots.
    + apply (NoDup_firsts (slot ∘ base)). rewrite Hconcat.
      apply ledger_NoDup.
Qed.

(** X10.  In each of the three views of the ledger no two periods bear
    the same name: the name the anchor holds designates one card
    only. *)
Theorem period_names_are_unique
    (incomes expenses emergencyFunds : list DataItem) (today : Date)
    (viewType : ViewType) :
  ∃ ps,
    aggregatedData (weeklyFullData incomes expenses emergencyFunds today)
      viewType = Some ps
    ∧ NoDup (period_name <$> ps)
    ∧ ∀ p q, p ∈ ps → q ∈ ps → period_name p = period_name q → p = q.
Proof.
  assert (∃ ps,
            aggregatedData
              (weeklyFullData incomes expenses emergencyFunds today)
              viewType = Some ps) as [ps Hps].
  { destruct (decide (viewType = weekly)) as [->|Hv]; [by eexists|].
    destruct (ledger_periods incomes expenses emergencyFunds today
                viewType Hv) as (cs & Hagg & _). by eexists. }
  pose proof (view_names_NoDup _ _ _ _ _ _ Hps) as Hnd.
  exists ps. split_and!; [done..|].
  intros p q. by apply inj_on_NoDup.
Qed.

(** ** The card of today *)


Lemma displayBlocks_found ps (anchor : string) (i : nat) first :
  list_find (λ d, period_name d = anchor) ps = Some (i, first) →
  displayBlocks true ps anchor = take 4 (drop i ps).
Proof.
  intros Hfind. pose proof Hfind as (Hi & _)%list_find_Some.
  unfold displayBlocks. simpl. rewrite (findIndex_found _ _ _ _ Hfind).
  destruct (Z.eqb_spec (Z.of_nat i) (-1)); [lia|].
  apply slice_from. by eapply lookup_lt_Some.
Qed.


(** ** Navigation among uniquely named periods *)

Lemma findIndex_NoDup ps (i : nat) p :
  NoDup (period_name <$> ps) →
  ps !! i = Some p →
  list_find (λ d, period_name d = period_name p) ps = Some (i, p).
Proof.
  intros Hnd Hi.
  destruct (list_find_elem_of (λ d, period_name d = period_name p) ps p)
    as [[j q] Hfind]; [by eapply list_elem_of_lookup_2|done|].
  pose proof Hfind as (Hj & Hq & _)%list_find_Some.
  assert (j = i) as ->.
  { apply (NoDup_lookup _ _ _ (period_name p) Hnd).
    - by rewrite list_lookup_fmap, Hj, <- Hq.
    - by rewrite list_lookup_fmap, Hi. }
  rewrite Hfind. congruence.
Qed.

(** X12.  Among uniquely named periods a drag steps by one card.  With
    the anchor on the period of index [i], a move of more than 100
    pixels to the right selects the period of index [i - 1] and one to
    the left the period of index [i + 1], the first and the last period
    staying where they are; in both cases the drag starts anew from the
    pointer.  A move of at most 100 pixels changes nothing. *)
Theorem drag_steps_one_card ps (st : DragState) (startX clientX : Z)
    (i : nat) p :
  NoDup (period_name <$> ps) →
  ps !! i = Some p →
  selectedFilter st = period_name p →
  dragStartX st = Some startX →
  isDragging st = true →
  ∃ st',
    handleMouseMove true ps st clientX = Some st'
    ∧ (Z.abs (clientX - startX) ≤ threshold → st' = st)
    ∧ (threshold < Z.abs (clientX - startX) →
         dragStartX st' = Some clientX ∧ isDragging st' = true)
    ∧ (threshold < clientX - startX →
         period_name <$> ps !! pred i = Some (selectedFilter st'))
    ∧ (clientX - startX < - threshold →
         period_name <$> ps !! Nat.min (S i) (pred (length ps))
         = Some (selectedFilter st')).
Proof.
  intros Hnd Hi Hsel Hstart Hdrag.
  pose proof (lookup_lt_Some _ _ _ Hi) as Hlen.
  remember (Nat.min (S i) (pred (length ps))) as next eqn:Hnext.
  unfold handleMouseMove. rewrite Hstart, Hdrag, Hsel. simpl.
  rewrite (findIndex_found _ _ _ _ (findIndex_NoDup ps i p Hnd Hi)).
  unfold threshold.
  destruct (Z.gtb_spec (Z.abs (clientX - startX)) 100) as [Hfar|Hnear].
  - destruct (Z.gtb_spec (clientX - startX) 0) as [Hright|Hleft].
    + destruct (Z.gtb_spec (Z.of_nat i) 0) as [Hpos|Hzero].
      * destruct (lookup_lt_is_Some_2 ps (pred i)) as [q Hq]; [lia|].
        replace (Z.of_nat i - 1) with (Z.of_nat (pred i)) by lia.
        rewrite (name_at_lookup ps (pred i) q Hq). simpl.
        eexists. split; [done|]. simpl.
        split_and!; intros; try lia; try done. by rewrite Hq.
      * assert (i = 0)%nat as -> by lia. simpl.
        eexists. split; [done|]. simpl.
        split_and!; intros; try lia; try done. by rewrite Hi.
    + destruct (Z.ltb_spec (Z.of_nat i) (Z.of_nat (length ps) - 1))
        as [Hmore|Hlast].
      * destruct (lookup_lt_is_Some_2 ps (S i)) as [q Hq]; [lia|].
        replace (Z.of_nat i + 1) with (Z.of_nat (S i)) by lia.
        rewrite (name_at_lookup ps (S i) q Hq). simpl.
        eexists. split; [done|]. simpl.
        split_and!; intros; try lia; try done.
        rewrite Hnext, Nat.min_l by lia. by rewrite Hq.
      * eexists. split; [done|]. simpl.
        split_and!; intros; try lia; try done.
        rewrite Hnext, Nat.min_r by lia.
        replace (pred (length ps)) with i by lia. by rewrite Hi.
  - exists st. split; [by destruct st; simpl in *; subst|].
    split_and!; intros; try lia; done.
Qed.

(** ** The drag session *)

(** A move leaves the state as it is, or, in a drag on loaded data,
    restarts the drag at the pointer with the anchor kept or set to the
    name of a period. *)
Lemma handleMouseMove_cases (isDataLoaded : bool) ps (st : DragState)
    (clientX : Z) :
  ∃ st',
    handleMouseMove isDataLoaded ps st clientX = Some st'
    ∧ (st' = st
       ∨ isDataLoaded = true ∧ isDragging st = true
         ∧ is_Some (dragStartX st)
         ∧ dragStartX st' = Some clientX ∧ isDragging st' = true
         ∧ (selectedFilter st' = selectedFilter st
            ∨ ∃ p, p ∈ ps ∧ period_name p = selectedFilter st')).
Proof.
  unfold handleMouseMove.
  destruct (dragStartX st) as [startX|] eqn:Hstart; [|by eauto].
  destruct (isDragging st) eqn:Hdrag; [|by eauto].
  destruct isDataLoaded; [|by eauto]. simpl.
  destruct (Z.abs (clientX - startX) >? threshold); [|by eauto].
  pose proof (findIndex_range (λ d, period_name d = selectedFilter st) ps)
    as Hidx.
  set (idx := findIndex _ ps) in *.
  assert (∀ j, 0 ≤ j < Z.of_nat (length ps) →
            ∃ q, q ∈ ps ∧ name_at ps j = Some (period_name q)) as Hread.
  { intros j Hj.
    destruct (lookup_lt_is_Some_2 ps (Z.to_nat j)) as [q Hq]; [lia|].
    exists q. split; [by eapply list_elem_of_lookup_2|].
    rewrite <- (Z2Nat.id j) by lia. by apply name_at_lookup. }
  destruct (clientX - startX >? 0).
  - destruct (Z.gtb_spec idx 0).
    + destruct (Hread (idx - 1)) as (q & Hq & ->); [lia|].
      eexists. split; [done|]. right. simpl. split_and!; eauto.
    + eexists. split; [done|]. right. simpl. split_and!; eauto.
  - destruct (Z.ltb_spec idx (Z.of_nat (length ps) - 1)).
    + destruct (Hread (idx + 1)) as (q & Hq & ->); [lia|].
      eexists. split; [done|]. right. simpl. split_and!; eauto.
    + eexists. split; [done|]. right. simpl. split_and!; eauto.
Qed.

Lemma handle_all_session (isDataLoaded : bool) ps (sel : string)
    (es : list MouseEvent) (st : DragState) :
  (isDragging st = true ↔ is_Some (dragStartX st)) →
  (isDataLoaded = false → isDragging st = false) →
  (selectedFilter st = sel
   ∨ ∃ p, p ∈ ps ∧ period_name p = selectedFilter st) →
  ∃ st',
    handle_all isDataLoaded ps st es = Some st'
    ∧ (isDragging st' = true ↔ is_Some (dragStartX st'))
    ∧ (selectedFilter st' = sel
       ∨ ∃ p, p ∈ ps ∧ period_name p = selectedFilter st')
    ∧ (isDataLoaded = false → isDragging st' = false)
    ∧ (isDataLoaded = false ∨ (isDragging st = false
                                ∧ ∀ x, MouseDown 0 x ∉ es) →
       selectedFilter st' = selectedFilter st).
Proof.
  revert st. induction es as [|e es IH]; intros st Hinv Hoff Hsel.
  { exists st. split_and!; done. }
  assert (∃ st1,
            handle isDataLoaded ps st e = Some st1
            ∧ (isDragging st1 = true ↔ is_Some (dragStartX st1))
            ∧ (isDataLoaded = false → isDragging st1 = false)
            ∧ (selectedFilter st1 = selectedFilter st
               ∨ isDataLoaded = true ∧ isDragging st = true
                 ∧ ∃ p, p ∈ ps ∧ period_name p = selectedFilter st1)
            ∧ (isDragging st = false → (∀ x, e ≠ MouseDown 0 x) →
               isDragging st1 = false))
    as (st1 & Hstep & Hinv1 & Hoff1 & Hsel1 & Hidle).
  { destruct e as [button x|x| |]; simpl.
    - eexists. split; [done|]. unfold handleMouseDown.
      destruct (Z.eqb_spec button 0) as [->|Hb], isDataLoaded; simpl;
        split_and!; auto; try done.
      intros _ Hno. by destruct (Hno x).
    - destruct (handleMouseMove_cases isDataLoaded ps st x)
        as (st1 & -> & [->|(Hl & Hd & Hs & Hs1 & Hd1 & Hn)]).
      + eexists. split; [done|]. split_and!; auto.
      + eexists. split; [done|]. split_and!; auto.
        * rewrite Hs1, Hd1. split; [by eauto|done].
        * intros ->. done.
        * destruct Hn as [Hn|Hn]; auto.
        * intros Hd'. congruence.
    - eexists. split; [done|]. unfold handleMouseUp. simpl.
      split_and!; auto. split; [done|]. by intros [? ?].
    - eexists. split; [done|]. unfold handleMouseUp. simpl.
      split_and!; auto. split; [done|]. by intros [? ?]. }
  destruct (IH st1 Hinv1 Hoff1) as (st' & Hall & Hinv' & Hsel' & Hoff' & Hkeep).
  { destruct Hsel1 as [->|(_ & _ & Hp)]; [done|by right]. }
  exists st'. simpl. rewrite Hstep. simpl.
  split_and!; [done..|].
  intros Hquiet.
  assert (selectedFilter st1 = selectedFilter st) as <-.
  { destruct Hsel1 as [Heq|(Hl & Hd & _)]; [done|].
    destruct Hquiet as [Hquiet|[Hquiet _]]; congruence. }
  apply Hkeep. destruct Hquiet as [Hquiet|[Hidle0 Hno]]; [by left|].
  right. split.
  - apply Hidle; [done|]. intros x ->. apply (Hno x), list_elem_of_here.
  - intros x Hx. apply (Hno x). by apply list_elem_of_further.
Qed.

(** X13.  A session of mouse events, from the state the component
    starts in, never fails on a read of a name and keeps the state
    consistent: a drag is in progress exactly when its starting point is
    recorded.  The anchor it ends with is the one it started with or the
    name of a period of the sequence, and it is the one it started with
    whenever the data is not loaded (no drag starts then) or the primary
    button is never pressed. *)
Theorem drag_session (isDataLoaded : bool) ps (sel : string)
    (es : list MouseEvent) :
  ∃ st',
    handle_all isDataLoaded ps (mkDrag None false sel) es = Some st'
    ∧ (isDragging st' = true ↔ is_Some (dragStartX st'))
    ∧ (selectedFilter st' = sel
       ∨ ∃ p, p ∈ ps ∧ period_name p = selectedFilter st')
    ∧ (isDataLoaded = false → isDragging st' = false)
    ∧ (isDataLoaded = false ∨ (∀ x, MouseDown 0 x ∉ es) →
       selectedFilter st' = sel).
Proof.
  destruct (handle_all_session isDataLoaded ps sel es (mkDrag None false sel))
    as (st' & Hall & Hinv & Hsel & Hoff & Hkeep); simpl.
  - split; [done|]. by intros [? ?].
  - done.
  - by left.
  - exists st'. split_and!; [done..|].
    intros [Hq|Hq]; apply Hkeep; [by left|by right].
Qed.

(** ** The cards of the window *)

(** X14.  Among uniquely named periods at most one card of the window
    is drawn as selected: the first one, when the anchor names a period
    of the sequence, and none when it does not. *)
Theorem selected_card_is_first ps (anchor : string) (j : nat) q :
  NoDup (period_name <$> ps) →
  displayBlocks true ps anchor !! j = Some q →
  isSelected q anchor = true
  ↔ j = 0%nat ∧ ∃ p, p ∈ ps ∧ period_name p = anchor.
Proof.
  intros Hnd Hq. unfold isSelected. rewrite bool_decide_eq_true.
  destruct (list_find (λ d, period_name d = anchor) ps)
    as [[i first]|] eqn:Hfind.
  - rewrite (displayBlocks_found _ _ _ _ Hfind) in Hq.
    pose proof Hfind as (Hi & Hfirst & _)%list_find_Some.
    apply lookup_take_Some in Hq as [Hq Hj]. rewrite lookup_drop in Hq.
    split.
    + intros Hname. split.
      * assert (i + j = i)%nat; [|lia].
        apply (NoDup_lookup _ _ _ anchor Hnd).
        -- by rewrite list_lookup_fmap, Hq, <- Hname.
        -- by rewrite list_lookup_fmap, Hi, <- Hfirst.
      * exists q. split; [by eapply list_elem_of_lookup_2|done].
    + intros [-> _]. rewrite Nat.add_0_r in Hq. congruence.
  - apply list_find_None in Hfind. rewrite Forall_forall in Hfind.
    unfold displayBlocks in Hq. simpl in Hq.
    rewrite (proj2 (findIndex_absent (λ d, period_name d = anchor) ps))
      in Hq by done.
    simpl in Hq. rewrite slice_last4 in Hq. rewrite lookup_drop in Hq.
    apply list_elem_of_lookup_2 in Hq. split.
    + intros Hname. by destruct (Hfind q).
    + intros [_ (p & Hp & Hname)]. by destruct (Hfind p).
Qed.

Lemma name_tails_NoDup : NoDup (chars <$> name_tails).
Proof. apply (bool_decide_unpack _). by vm_compute. Qed.

Lemma name_tails_head :
  Forall (λ t, ∃ r, chars t = year_mark :: r) name_tails.
Proof.
  unfold name_tails. rewrite !Forall_app, !Forall_fmap.
  split_and!; apply Forall_forall; intros x _; by eexists.
Qed.

(** Names of periods of different views differ. *)
Lemma view_names_differ (y y' : Z) (t t' : string) :
  t ∈ name_tails → t' ∈ name_tails →
  pretty y +:+ t = pretty y' +:+ t' → y = y' ∧ t = t'.
Proof.
  intros Ht Ht' Heq.
  apply (name_tail_inj id name_tails year_mark); try done.
  - apply year_mark_fresh.
  - apply name_tails_head.
  - apply name_tails_NoDup.
Qed.

Lemma special_names_slots :
  special_names
  = (λ s : Z * Z * Z, pretty s.1.1 +:+ week_name_tail (s.1.2, s.2))
      <$> special_slots.
Proof. by vm_compute. Qed.

Lemma week_tail_in (m k : Z) :
  1 ≤ m ≤ 12 → 1 ≤ k ≤ 4 → week_name_tail (m, k) ∈ name_tails.
Proof.
  intros Hm Hk. unfold name_tails. rewrite !elem_of_app. right. right.
  apply (list_elem_of_fmap_2 week_name_tail). by apply elem_of_week_slots.
Qed.

Lemma chunk_tail_in (viewType : ViewType)
    (c : BalancedWeek (num:=num) * list BalancedWeek) :
  chunk_slots viewType c →
  ∃ t, group_name viewType c.1 = pretty (year (base c.1)) +:+ t
       ∧ t ∈ name_tails
       ∧ ∀ m k, t ≠ week_name_tail (m, k) ∨ ¬ (1 ≤ m ≤ 12 ∧ 1 ≤ k ≤ 4).
Proof.
  intros (y & m & Hm & Hc).
  destruct c as [b l]. unfold chunk_weeks in *. simpl in *.
  pose proof name_tails_NoDup as Hnd. unfold name_tails in Hnd.
  rewrite !fmap_app in Hnd.
  apply NoDup_app in Hnd as (_ & Hmonth & Hnd).
  apply NoDup_app in Hnd as (_ & Hsemi & _).
  assert (∀ m' k', 1 ≤ m' ≤ 12 ∧ 1 ≤ k' ≤ 4 →
            chars (week_name_tail (m', k'))
            ∈ chars <$> (week_name_tail <$> week_slots)) as Hweek.
  { intros m' k' [? ?]. do 2 apply list_elem_of_fmap_2.
    by apply elem_of_week_slots. }
  destruct viewType; [done| |].
  - assert (∃ k, slot (base b) = (y, m, k) ∧ (k = 1 ∨ k = 3))
      as (k & Hb & Hk).
    { destruct Hc as [Hc|Hc]; [exists 1|exists 3];
        (split; [congruence|auto]). }
    unfold slot in Hb. injection Hb as Y M K.
    assert ((m, k) ∈ semi_slots) as Hin.
    { unfold semi_slots. apply list_elem_of_bind. exists m. split.
      - destruct Hk as [-> | ->];
          repeat (apply list_elem_of_here || apply list_elem_of_further).
      - apply elem_of_seqZ. lia. }
    exists (semi_name_tail (m, k)). split_and!.
    + unfold group_name, sub_of. simpl. by rewrite M, K.
    + unfold name_tails. rewrite !elem_of_app. right. left.
      by apply list_elem_of_fmap_2.
    + intros m' k'.
      destruct (decide (1 ≤ m' ≤ 12 ∧ 1 ≤ k' ≤ 4)) as [Hmk|]; [|by right].
      left. intros Heq. apply (Hsemi (chars (semi_name_tail (m, k)))).
      * by do 2 apply list_elem_of_fmap_2.
      * rewrite Heq. by apply Hweek.
  - assert (slot (base b) = (y, m, 1)) as Hb by congruence.
    unfold slot in Hb. injection Hb as Y M K.
    exists (month_name_tail m). split_and!.
    + unfold group_name. simpl. by rewrite M.
    + unfold name_tails. rewrite !elem_of_app. left.
      apply list_elem_of_fmap_2, elem_of_seqZ. lia.
    + intros m' k'.
      destruct (decide (1 ≤ m' ≤ 12 ∧ 1 ≤ k' ≤ 4)) as [Hmk|]; [|by right].
      left. intros Heq. apply (Hmonth (chars (month_name_tail m))).
      * apply list_elem_of_fmap_2, list_elem_of_fmap_2, elem_of_seqZ. lia.
      * apply elem_of_app. right. rewrite Heq. by apply Hweek.
Qed.

(** X15.  The special highlight is a matter of the weekly view: a card
    of the ledger bears it exactly when it is week 4 of January 2026 or
    one of weeks 1 to 3 of February 2026, and no card of the half-month
    view or of the month view ever does. *)
Theorem special_highlight_is_weekly
    (incomes expenses emergencyFunds : list DataItem) (today : Date)
    (viewType : ViewType) :
  ∃ ps,
    aggregatedData (weeklyFullData incomes expenses emergencyFunds today)
      viewType = Some ps
    ∧ ∀ p, p ∈ ps →
        isSpecialHighlight p = true
        ↔ ∃ b, p = PWeek b ∧ slot (base b) ∈ special_slots.
Proof.
  destruct (decide (viewType = weekly)) as [->|Hv].
  - eexists. split; [done|].
    intros p (b & -> & Hb)%list_elem_of_fmap_1.
    unfold isSpecialHighlight. rewrite bool_decide_eq_true. simpl.
    rewrite (ledger_names _ _ _ _ _ Hb), special_names_slots.
    destruct (ledger_field _ _ _ _ _ f_income Hb) as [(Hm & Hk & _) _].
    change (week_name (base b))
      with (pretty (year (base b))
            +:+ week_name_tail (month (base b), week (base b))).
    split.
    + intros (s & Hname & Hs)%list_elem_of_fmap_1.
      exists b. split; [done|].
      assert (1 ≤ s.1.2 ≤ 12 ∧ 1 ≤ s.2 ≤ 4) as Hrange.
      { repeat (apply elem_of_cons in Hs as [->|Hs]; [simpl; lia|]).
        by apply elem_of_nil in Hs. }
      apply view_names_differ in Hname as [Hy Ht].
      * assert ((month (base b), week (base b)) = (s.1.2, s.2)) as Hmk.
        { apply (inj_on_NoDup (chars ∘ week_name_tail) week_slots).
          - apply week_name_tails_NoDup.
          - by apply elem_of_week_slots.
          - by apply elem_of_week_slots; apply Hrange.
          - by apply (f_equal chars) in Ht. }
        unfold slot. injection Hmk as -> ->. rewrite Hy.
        by destruct s as [[? ?] ?].
      * by apply week_tail_in.
      * by apply week_tail_in; apply Hrange.
    + intros (b' & [= <-] & Hs).
      apply (list_elem_of_fmap_2
               (λ s : Z * Z * Z,
                  pretty s.1.1 +:+ week_name_tail (s.1.2, s.2))) in Hs.
      exact Hs.
  - destruct (ledger_periods incomes expenses emergencyFunds today
                viewType Hv) as (cs & Hagg & _ & Hslots).
    eexists. split; [exact Hagg|].
    rewrite Forall_forall in Hslots.
    intros p (a & -> & (c & -> & Hc)%list_elem_of_fmap_1)%list_elem_of_fmap_1.
    split; [|by intros (b & ? & _)].
    unfold isSpecialHighlight. rewrite bool_decide_eq_true. simpl.
    rewrite special_names_slots.
    intros (s & Hname & Hs)%list_elem_of_fmap_1. exfalso.
    destruct (chunk_tail_in viewType c (Hslots c Hc)) as (t & Ht & Hin & Hno).
    rewrite Ht in Hname.
    assert (1 ≤ s.1.2 ≤ 12 ∧ 1 ≤ s.2 ≤ 4) as Hrange.
    { repeat (apply elem_of_cons in Hs as [->|Hs]; [simpl; lia|]).
      by apply elem_of_nil in Hs. }
    apply view_names_differ in Hname as [_ Heq];
      [|done|by apply week_tail_in; apply Hrange].
    destruct (Hno s.1.2 s.2) as [Hne|Hne]; [by apply Hne|by apply Hne].
Qed.

(** ** The emergency fund and the balance *)

Lemma populate_fund_books (items : list DataItem) (weeks : list Week) :
  books <$> populate items f_emergencyFund weeks = books <$> weeks.
Proof.
  unfold populate. revert weeks.
  induction items as [|item items IH]; intros weeks; simpl; [done|].
  rewrite IH. unfold populate_item. simpl.
  destruct (list_find _ weeks) as [[i target]|] eqn:Hfind; [|done].
  apply list_find_Some in Hfind as (Hi & _ & _).
  rewrite list_fmap_insert. apply list_insert_id.
  by rewrite list_lookup_fmap, Hi.
Qed.

Lemma roll_books (bal : num) (weeks weeks' : list Week) :
  books <$> weeks = books <$> weeks' →
  balance_sheet <$> roll bal weeks = balance_sheet <$> roll bal weeks'.
Proof.
  revert bal weeks'.
  induction weeks as [|w weeks IH]; intros bal [|w' weeks'] Heq;
    try done.
  rewrite !fmap_cons in Heq. injection Heq as Hy Hm Hk Hkey Hin Hex Hrest.
  simpl. unfold balance_sheet at 1 3, books, slot, week_name. simpl.
  rewrite Hy, Hm, Hk, Hkey, Hin, Hex. f_equal. by apply IH.
Qed.

(** X16.  The emergency fund never enters the balance: with the dates
    of the emergency-fund rows kept, whatever their amounts and
    categories, every week of the ledger keeps its date, key, name,
    income, expense, opening and closing. *)
Theorem emergency_fund_is_off_balance
    (incomes expenses emergencyFunds emergencyFunds' : list DataItem)
    (today : Date) :
  date <$> emergencyFunds = date <$> emergencyFunds' →
  balance_sheet <$> weeklyFullData incomes expenses emergencyFunds today
  = balance_sheet <$> weeklyFullData incomes expenses emergencyFunds' today.
Proof.
  intros Hdates.
  assert (date <$> (incomes ++ expenses ++ emergencyFunds)
          = date <$> (incomes ++ expenses ++ emergencyFunds')) as Hall.
  { by rewrite !fmap_app, Hdates. }
  destruct (date <$> (incomes ++ expenses ++ emergencyFunds))
    as [|d ds] eqn:Hd.
  - unfold weeklyFullData. by rewrite Hd, <- Hall.
  - rewrite (weeklyFullData_eq _ _ _ _ _ _ Hd).
    rewrite (weeklyFullData_eq _ _ _ _ _ _ (eq_sym Hall)).
    case_bool_decide; [done|].
    apply roll_books. by rewrite !populate_fund_books.
Qed.

(** ** The label of a day *)

Lemma code_tails_NoDup : NoDup (chars ∘ code_tail <$> label_codes).
Proof. apply (bool_decide_unpack _). by vm_compute. Qed.

Lemma code_tails_head :
  Forall (λ c, ∃ r, chars (code_tail c) = year_mark :: r) label_codes.
Proof.
  apply Forall_forall. intros c _. unfold code_tail.
  repeat case_match; by eexists.
Qed.

Lemma label_code_in (date : Date) (viewType : ViewType) :
  label_code date viewType ∈ label_codes.
Proof.
  pose proof (date_month_range date) as Hm.
  assert (1 ≤ getWeekIndex (getDate date) ≤ 4) as Hk.
  { unfold getWeekIndex. repeat case_match; lia. }
  unfold label_codes, label_code. rewrite !elem_of_app.
  destruct viewType.
  - right. right.
    apply (list_elem_of_fmap_2 (λ mk : Z * Z, (2, mk.1, mk.2))
             _ (getMonth date + 1, getWeekIndex (getDate date))).
    apply elem_of_week_slots; lia.
  - right. left.
    apply (list_elem_of_fmap_2 (λ mk : Z * Z, (1, mk.1, mk.2))
             _ (getMonth date + 1,
                if getWeekIndex (getDate date) <=? 2 then 1 else 3)).
    unfold semi_slots. apply list_elem_of_bind. eexists. split.
    + case_match;
        repeat (apply list_elem_of_here || apply list_elem_of_further).
    + apply elem_of_seqZ. lia.
  - left. apply (list_elem_of_fmap_2 (λ m, (0, m, 0))).
    apply elem_of_seqZ. lia.
Qed.

Lemma label_code_tail (date : Date) (viewType : ViewType) :
  getPeriodNameFromDate date viewType
  = pretty (getFullYear date) +:+ code_tail (label_code date viewType).
Proof.
  unfold getPeriodNameFromDate, label_code.
  destruct viewType; [done| |done]. by case_match.
Qed.

(** X17.  The label of a day identifies its period: two labels are
    equal exactly when they are made for the same view and the two days
    lie in the same year and month and, in the weekly view, in the same
    week of the month, in the half-month view, in the same half. *)
Theorem label_identifies_period (d d' : Date) (viewType viewType' : ViewType) :
  getPeriodNameFromDate d viewType = getPeriodNameFromDate d' viewType'
  ↔ viewType = viewType'
    ∧ getFullYear d = getFullYear d'
    ∧ getMonth d = getMonth d'
    ∧ match viewType with
      | weekly => getWeekIndex (getDate d) = getWeekIndex (getDate d')
      | semi_monthly =>
          (getWeekIndex (getDate d) <=? 2)
          = (getWeekIndex (getDate d') <=? 2)
      | monthly => True
      end.
Proof.
  split.
  - rewrite !label_code_tail. intros Heq.
    apply (name_tail_inj code_tail label_codes year_mark) in Heq
      as [Hy Hcode];
      [|apply year_mark_fresh|apply code_tails_head|apply code_tails_NoDup
       |apply label_code_in..].
    unfold label_code in Hcode.
    destruct viewType, viewType'; try discriminate Hcode;
      injection Hcode; intros; split_and!; try done; try lia.
    by repeat case_match.
  - intros (<- & Hy & Hm & Hk). unfold getPeriodNameFromDate.
    rewrite Hy, Hm. destruct viewType; by rewrite ?Hk.
Qed.

(** ** The month view and the half-month view side by side *)

Lemma ledger_month_blocks (incomes expenses emergencyFunds : list DataItem)
    (today : Date) :
  month_blocks (weeklyFullData incomes expenses emergencyFunds today).
Proof.
  destruct (ledger_shape incomes expenses emergencyFunds today)
    as [->|(s & e & Hs & Heq)]; [constructor|].
  apply (blocks_of_slots _ s
           (Z.to_nat (month_number e - month_number s + 1)) Hs).
  rewrite Heq, list_fmap_compose, roll_base. apply ledger_weeks_slots.
Qed.

Lemma blocks_chunks (ws : list BalancedWeek) :
  month_blocks ws →
  length (chunks2 ws) = (2 * length (chunks4 ws))%nat
  ∧ ∀ (k : nat) c,
      chunks4 ws !! k = Some c →
      ∃ b1 b2 b3 b4 (y m : Z),
        c = (b1, [b2; b3; b4])
        ∧ chunks2 ws !! (2 * k)%nat = Some (b1, [b2])
        ∧ chunks2 ws !! (2 * k + 1)%nat = Some (b3, [b4])
        ∧ slot ∘ base <$> [b1; b2; b3; b4]
          = [(y, m, 1); (y, m, 2); (y, m, 3); (y, m, 4)].
Proof.
  induction 1 as [|y m b1 b2 b3 b4 rest Hm H1 H2 H3 H4 _ _ [IHlen IH]].
  { split; [done|]. by intros k c. }
  cbn [chunks4 chunks2]. split; [simpl; lia|].
  intros [|k] c Hc.
  - injection Hc as <-. exists b1, b2, b3, b4, y, m.
    split_and!; [done..|]. simpl. by rewrite H1, H2, H3, H4.
  - simpl in Hc. destruct (IH k c Hc)
      as (c1 & c2 & c3 & c4 & y' & m' & -> & Hk1 & Hk2 & Hs).
    exists c1, c2, c3, c4, y', m'. split_and!; [done| | |done].
    + replace (2 * S k)%nat with (S (S (2 * k))) by lia. exact Hk1.
    + replace (2 * S k + 1)%nat with (S (S (2 * k + 1))) by lia. exact Hk2.
Qed.

(** X18.  The month view and the half-month view of the ledger agree:
    there are two half months for every month, in the same order; a
    month is made of the weeks of its first half followed by those of
    its second half, opens where the first half opens, closes where the
    second half closes, and shows the emergency fund of the second
    half. *)
Theorem month_is_two_halves
    (incomes expenses emergencyFunds : list DataItem) (today : Date) :
  let ws := weeklyFullData incomes expenses emergencyFunds today in
  ∃ months halves,
    aggregatedData ws monthly = Some (PAggregated <$> months)
    ∧ aggregatedData ws semi_monthly = Some (PAggregated <$> halves)
    ∧ length halves = (2 * length months)%nat
    ∧ ∀ (k : nat) month_,
        months !! k = Some month_ →
        ∃ first second,
          halves !! (2 * k)%nat = Some first
          ∧ halves !! (2 * k + 1)%nat = Some second
          ∧ a_subType first = first_half
          ∧ a_subType second = second_half
          ∧ (a_year first, a_month first) = (a_year month_, a_month month_)
          ∧ (a_year second, a_month second)
            = (a_year month_, a_month month_)
          ∧ a_weeks month_ = a_weeks first ++ a_weeks second
          ∧ a_opening month_ = a_opening first
          ∧ a_closing month_ = a_closing second
          ∧ a_emergencyFund month_ = a_emergencyFund second.
Proof.
  intros ws.
  destruct (blocks_chunks ws
              (ledger_month_blocks incomes expenses emergencyFunds today))
    as [Hlen Hchunks].
  exists (period_from monthly ws <$> chunks monthly ws),
    (period_from semi_monthly ws <$> chunks semi_monthly ws).
  split; [by apply ledger_aggregated|].
  split; [by apply ledger_aggregated|].
  split; [by rewrite !length_fmap|].
  intros k month_ Hk. rewrite list_lookup_fmap in Hk.
  destruct (chunks monthly ws !! k) as [c|] eqn:Hc; [|done].
  injection Hk as <-.
  destruct (Hchunks k c Hc)
    as (b1 & b2 & b3 & b4 & y & m & -> & Hk1 & Hk2 & Hslots).
  injection Hslots as Y1 M1 K1 Y2 M2 K2 Y3 M3 K3 Y4 M4 K4.
  exists (period_from semi_monthly ws (b1, [b2])),
    (period_from semi_monthly ws (b3, [b4])).
  unfold chunks. rewrite !list_lookup_fmap, Hk1, Hk2.
  unfold period_from, efValue, sub_of, chunk_weeks, chunk_last. simpl.
  rewrite K1, K3, Y1, M1, Y3, M3. simpl.
  unfold sub_of. simpl. rewrite K3. simpl.
  split_and!; done.
Qed.

(** ** The anchor names a card *)

(** X19.  On a non-empty sequence of periods the anchor the default
    effect sets is the name of a period, and it remains one through any
    session of mouse events: the window is then never the fallback of
    the last four periods but starts at a card bearing the anchor's
    name. *)
Theorem anchor_always_names_a_period ps (viewType : ViewType) (today : Date)
    (selected : string) (isDataLoaded : bool) (es : list MouseEvent) :
  ps ≠ [] →
  ∃ anchor st' first,
    defaultAnchor ps viewType today selected = Some anchor
    ∧ handle_all isDataLoaded ps (mkDrag None false anchor) es = Some st'
    ∧ head (displayBlocks true ps (selectedFilter st')) = Some first
    ∧ period_name first = selectedFilter st'
    ∧ first ∈ ps.
Proof.
  intros Hne.
  assert (∃ anchor p,
            defaultAnchor ps viewType today selected = Some anchor
            ∧ p ∈ ps ∧ period_name p = anchor) as (anchor & p & Hdef & Hp & Hname).
  { unfold defaultAnchor.
    assert (0 < length ps)%nat as Hlen by (destruct ps; simpl; [done|lia]).
    rewrite bool_decide_eq_true_2 by lia.
    destruct (existsb _ ps) eqn:Hex.
    - apply exists_name in Hex as (p & Hin & Hp).
      by exists (getPeriodNameFromDate today viewType), p.
    - destruct (lookup_lt_is_Some_2 ps (pred (length ps))) as [p Hp]; [lia|].
      exists (period_name p), p. split_and!; [|by eapply list_elem_of_lookup_2|done].
      replace (Z.of_nat (length ps) - 1) with (Z.of_nat (pred (length ps)))
        by lia.
      by apply name_at_lookup. }
  destruct (handle_all_session isDataLoaded ps anchor es
              (mkDrag None false anchor))
    as (st' & Hall & _ & Hsel & _); simpl.
  { split; [done|]. by intros [? ?]. }
  { done. }
  { by left. }
  assert (∃ q, q ∈ ps ∧ period_name q = selectedFilter st') as (q & Hq & Hqn).
  { destruct Hsel as [->|Hsel]; [by exists p|done]. }
  destruct (list_find_elem_of (λ d, period_name d = selectedFilter st')
              ps q Hq Hqn) as [[i first] Hfind].
  pose proof Hfind as (Hi & Hfirst & _)%list_find_Some.
  exists anchor, st', first. split_and!; [done..| |done|].
  - rewrite (displayBlocks_found _ _ _ _ Hfind).
    rewrite head_lookup, lookup_take_lt, lookup_drop by lia.
    by rewrite Nat.add_0_r.
  - by eapply list_elem_of_lookup_2.
Qed.

(** ** The ledger as time goes by *)

Lemma months_from_take (c : FirstOfMonth) (n n' : nat) :
  (n ≤ n')%nat → months_from c n = take n (months_from c n').
Proof.
  revert c n'. induction n as [|n IH]; intros c n' Hn; [done|].
  destruct n' as [|n']; [lia|]. simpl. f_equal. apply IH. lia.
Qed.

Lemma month_weeks_take (l : list FirstOfMonth) (n : nat) :
  take n l ≫= month_weeks (num:=num)
  = take (4 * n) (l ≫= month_weeks (num:=num)).
Proof.
  revert n. induction l as [|c l IH]; intros n.
  { rewrite take_nil. change ([] ≫= month_weeks (num:=num)) with (@nil (Week (num:=num))).
    by rewrite take_nil. }
  destruct n as [|n]; [done|].
  replace (4 * S n)%nat with (S (S (S (S (4 * n))))) by lia.
  cbn [take]. rewrite !bind_cons, IH. done.
Qed.

Lemma populate_item_take field (weeks : list Week) (item : DataItem)
    (k : nat) :
  populate_item field (take k weeks) item
  = take k (populate_item field weeks item).
Proof.
  unfold populate_item. case_match; [done|].
  destruct (list_find _ weeks) as [[i target]|] eqn:Hfind.
  - apply list_find_Some in Hfind as (Hi & Hkey & Hbefore).
    destruct (decide (i < k)%nat) as [Hik|Hik].
    + assert (list_find (λ w, key w = item_key item) (take k weeks)
              = Some (i, target)) as ->.
      { apply list_find_Some. split_and!; [|done|].
        - by rewrite lookup_take_lt.
        - intros j w Hj Hji. apply (Hbefore j w); [|done].
          by apply lookup_take_Some in Hj as [Hj _]. }
      by rewrite take_insert_lt.
    + assert (list_find (λ w, key w = item_key item) (take k weeks) = None)
        as ->.
      { apply list_find_None, Forall_forall.
        intros w (j & Hj)%list_elem_of_lookup_1.
        apply lookup_take_Some in Hj as [Hj Hjk].
        apply (Hbefore j w Hj). lia. }
      by rewrite take_insert_ge by lia.
  - assert (list_find (λ w, key w = item_key item) (take k weeks) = None)
      as ->; [|done].
    rewrite list_find_None, Forall_forall in Hfind |- *.
    intros w Hw. apply Hfind.
    apply list_elem_of_lookup_1 in Hw as (j & Hj).
    apply lookup_take_Some in Hj as [Hj _]. by eapply list_elem_of_lookup_2.
Qed.

Lemma populate_take (items : list DataItem) field (weeks : list Week)
    (k : nat) :
  populate items field (take k weeks) = take k (populate items field weeks).
Proof.
  unfold populate. revert weeks.
  induction items as [|item items IH]; intros weeks; simpl; [done|].
  by rewrite populate_item_take, IH.
Qed.

Lemma roll_take (bal : num) (weeks : list Week) (k : nat) :
  roll bal (take k weeks) = take k (roll bal weeks).
Proof.
  revert bal k. induction weeks as [|w weeks IH]; intros bal k.
  { by destruct k. }
  destruct k as [|k]; [done|]. simpl. by rewrite IH.
Qed.

Lemma later_mono (a x y : Date) :
  date_leb x y = true → date_leb (later a x) (later a y) = true.
Proof.
  intros Hxy. unfold later.
  destruct (date_leb a x) eqn:Hax, (date_leb a y) eqn:Hay; try done.
  - by rewrite (date_leb_trans a x y) in Hay.
  - apply date_leb_refl.
Qed.

(** X20.  History is stable.  With the same transactions, all dated
    after the year 99, the ledger read on a day is the beginning of the
    ledger read on any later day that keeps the safety bound: time adds
    weeks at the end and changes none of those that are there. *)
Theorem ledger_history_is_stable
    (incomes expenses emergencyFunds : list DataItem) (today today' : Date)
    (d : Date) (ds : list Date) :
  date <$> (incomes ++ expenses ++ emergencyFunds) = d :: ds →
  99 < getFullYear (Math_min d ds) →
  date_leb today today' = true →
  fm_year (range_end d ds today') - fm_year (range_start d ds) ≤ 10 →
  ∃ later_weeks,
    weeklyFullData incomes expenses emergencyFunds today'
    = weeklyFullData incomes expenses emergencyFunds today ++ later_weeks.
Proof.
  intros Hdates Hyear Htoday Hbound.
  pose proof (Math_min_le d ds) as Hmin%date_leb_spec.
  assert (∀ t, date_leb d (Math_max d (ds ++ [t])) = true) as Hmax.
  { intros t. apply Math_max_ge. }
  assert (date_leb (Math_max d (ds ++ [today]))
            (Math_max d (ds ++ [today'])) = true) as Hle.
  { unfold Math_max. rewrite !foldl_app. simpl. by apply later_mono. }
  pose proof (Hmax today) as H1%date_leb_spec.
  pose proof (Hmax today') as H2%date_leb_spec.
  apply date_leb_spec in Hle.
  pose proof (date_month_range (Math_min d ds)).
  pose proof (date_month_range (Math_max d (ds ++ [today]))).
  pose proof (date_month_range (Math_max d (ds ++ [today']))).
  destruct (new_Date_year (getFullYear (Math_min d ds))
              (getMonth (Math_min d ds))) as [Hsy Hsm]; [done|].
  destruct (new_Date_year (getFullYear (Math_max d (ds ++ [today])))
              (getMonth (Math_max d (ds ++ [today])))) as [Hey Hem]; [done|].
  destruct (new_Date_year (getFullYear (Math_max d (ds ++ [today'])))
              (getMonth (Math_max d (ds ++ [today'])))) as [Hey' Hem']; [done|].
  fold (range_start d ds) in Hsy, Hsm.
  fold (range_end d ds today) in Hey, Hem.
  fold (range_end d ds today') in Hey', Hem'.
  rewrite andb_false_intro2 in Hsy by lia.
  rewrite andb_false_intro2 in Hey by lia.
  rewrite andb_false_intro2 in Hey' by lia.
  rewrite !(weeklyFullData_eq _ _ _ _ _ _ Hdates).
  rewrite !bool_decide_eq_false_2 by lia.
  set (n := Z.to_nat (month_number (range_end d ds today)
                      - month_number (range_start d ds) + 1)).
  set (n' := Z.to_nat (month_number (range_end d ds today')
                       - month_number (range_start d ds) + 1)).
  assert (n ≤ n')%nat as Hn.
  { subst n n'. unfold month_number. lia. }
  unfold months_between. fold n n'.
  rewrite (months_from_take _ n n' Hn), month_weeks_take.
  rewrite !populate_take, roll_take.
  eexists. symmetry. apply take_drop.
Qed.

End MoreProperties.

(** ** The further properties on the sample ledgers *)


Lemma ledger_is_gap_free_witness :
  ∃ b,
    quarter_ledger !! 6%nat = Some b
    ∧ year (base b) = 2024 ∧ month (base b) = 2 ∧ week (base b) = 3.
Proof.
  assert (∃ b, quarter_ledger !! 6%nat = Some b) as [b Hb].
  { vm_compute. by eexists. }
  exists b. split; [exact Hb|].
  destruct (ledger_is_gap_free quarter_incomes [] sample_funds sample_today
              (mkDate 2024 0 5 eq_refl)
              [mkDate 2024 1 20 eq_refl; mkDate 2024 2 3 eq_refl;
               mkDate 2024 2 25 eq_refl] 6 b eq_refl)
    as (Hy & Hm & Hw).
  - vm_compute. discriminate.
  - exact Hb.
  - rewrite Hy, Hm, Hw. by vm_compute.
Defined.

Lemma aggregation_keeps_every_week_witness :
  ∃ periods,
    aggregatedData quarter_ledger semi_monthly
    = Some (PAggregated <$> periods)
    ∧ concat (a_weeks <$> periods) = quarter_ledger.
Proof.
  apply (aggregation_keeps_every_week quarter_incomes [] sample_funds
           sample_today semi_monthly).
  discriminate.
Defined.

Lemma period_balances_chain_witness :
  ∃ periods,
    aggregatedData quarter_ledger monthly = Some (PAggregated <$> periods)
    ∧ (∀ first, head periods = Some first → a_opening first = 1016000)
    ∧ (∀ (i : nat) prev cur,
         periods !! i = Some prev → periods !! S i = Some cur →
         a_opening cur = a_closing prev).
Proof.
  assert (monthly ≠ weekly) as Hview by discriminate.
  exact (period_balances_chain quarter_incomes [] sample_funds
           sample_today monthly Hview).
Defined.

Lemma emergency_fund_of_last_week_witness :
  ∃ periods,
    aggregatedData quarter_ledger monthly = Some (PAggregated <$> periods)
    ∧ ∀ a, a ∈ periods →
        ∃ last_week,
          last (a_weeks a) = Some last_week
          ∧ a_emergencyFund a = emergencyFund (base last_week).
Proof.
  apply (emergency_fund_of_last_week quarter_incomes [] sample_funds
           sample_today monthly).
  discriminate.
Defined.


Lemma drag_steps_one_card_witness :
  ∃ st',
    handleMouseMove true (PWeek <$> sample_ledger) march_drag 300 = Some st'
    ∧ dragStartX st' = Some 300
    ∧ selectedFilter st' = "2024年3月 第3周".
Proof.
  assert (∃ p, (PWeek <$> sample_ledger) !! 1%nat = Some p
               ∧ selectedFilter march_drag = period_name p)
    as (p & Hp & Hname).
  { vm_compute. by eexists. }
  assert (NoDup (period_name <$> (PWeek <$> sample_ledger))) as Hnd.
  { apply (bool_decide_unpack _). by vm_compute. }
  destruct (drag_steps_one_card (PWeek <$> sample_ledger) march_drag 500 300
              1 p Hnd Hp Hname eq_refl eq_refl)
    as (st' & Hmove & _ & Hfar & _ & Hleft).
  exists st'. split; [exact Hmove|].
  destruct Hfar as [Hstart _]; [by vm_compute|].
  split; [exact Hstart|].
  assert (period_name <$> (PWeek <$> sample_ledger) !! 2%nat
          = Some "2024年3月 第3周") as Hnext by by vm_compute.
  specialize (Hleft ltac:(by vm_compute)).
  change (Nat.min 2 (pred (length (PWeek <$> sample_ledger))))
    with 2%nat in Hleft.
  rewrite Hnext in Hleft. by injection Hleft.
Defined.

Lemma selected_card_is_first_witness :
  ∃ q,
    displayBlocks true (PWeek <$> sample_ledger) "2024年3月 第2周" !! 1%nat
    = Some q
    ∧ isSelected q "2024年3月 第2周" = false.
Proof.
  assert (∃ q, displayBlocks true (PWeek <$> sample_ledger)
                 "2024年3月 第2周" !! 1%nat = Some q) as [q Hq].
  { vm_compute. by eexists. }
  assert (NoDup (period_name <$> (PWeek <$> sample_ledger))) as Hnd.
  { apply (bool_decide_unpack _). by vm_compute. }
  exists q. split; [exact Hq|].
  destruct (isSelected q "2024年3月 第2周") eqn:Hsel; [|reflexivity].
  apply (selected_card_is_first (PWeek <$> sample_ledger)
           "2024年3月 第2周" 1 q Hnd Hq) in Hsel as [Hj _].
  discriminate Hj.
Defined.

Lemma emergency_fund_is_off_balance_witness :
  balance_sheet <$> weeklyFullData quarter_incomes [] sample_funds sample_today
  = balance_sheet <$> weeklyFullData quarter_incomes [] other_funds sample_today.
Proof.
  apply (emergency_fund_is_off_balance quarter_incomes [] sample_funds
           other_funds sample_today).
  reflexivity.
Defined.

Lemma anchor_always_names_a_period_witness :
  ∃ anchor st' first,
    defaultAnchor (PWeek <$> sample_ledger) weekly sample_today ""
    = Some anchor
    ∧ handle_all true (PWeek <$> sample_ledger) (mkDrag None false anchor)
        [MouseDown 0 500; MouseMove 300; MouseMove 50; MouseUp]
      = Some st'
    ∧ head (displayBlocks true (PWeek <$> sample_ledger) (selectedFilter st'))
      = Some first
    ∧ period_name first = selectedFilter st'
    ∧ first ∈ PWeek <$> sample_ledger.
Proof.
  apply (anchor_always_names_a_period (PWeek <$> sample_ledger) weekly
           sample_today "" true
           [MouseDown 0 500; MouseMove 300; MouseMove 50; MouseUp]).
  vm_compute. discriminate.
Defined.

Lemma ledger_history_is_stable_witness :
  ∃ later_weeks,
    weeklyFullData quarter_incomes [] sample_funds
      (mkDate 2024 4 2 eq_refl)
    = quarter_ledger ++ later_weeks.
Proof.
  apply (ledger_history_is_stable quarter_incomes [] sample_funds
           sample_today (mkDate 2024 4 2 eq_refl)
           (mkDate 2024 0 5 eq_refl)
           [mkDate 2024 1 20 eq_refl; mkDate 2024 2 3 eq_refl;
            mkDate 2024 2 25 eq_refl] eq_refl).
  - by vm_compute.
  - reflexivity.
  - vm_compute. discriminate.
Defined.
